(** * deno-code-generator: a shallow embedding of [src/lib/code-generator.js]

    The module exports one class with two methods, [generateCodes] and
    [randomChars], and keeps its helpers private.  The embedding follows the
    source function by function and keeps its names.

    - Numbers that count things (howMany, lengths, permutations) are [nat] or
      [Z], and [sparsity] is a rational [Q], the value of a double.  The two
      operations the module applies to a sparsity, [count * sparsity] and
      [possible / sparsity], are the operations of IEEE 754 doubles: the
      exact product or quotient rounded to 53 significant bits, to the
      nearest with a tie to the even neighbour ([toDouble]).  Sums,
      differences and powers of counts are taken exactly, as they are in
      doubles up to 2^53; the statements that equate the capacity check
      with an inequality carry that bound on the number of permutations.
      The product [Math.random() * allowedChars.length] is taken exactly
      too: its rounding can change which character a draw picks, not
      whether the index falls inside the alphabet.
    - [Math.log] is taken exactly in [neededChars]; an engine returns an
      approximation, and the quotient of two logarithms is rounded.  The
      values [Infinity] and [NaN] that [Math.log] and a division by zero
      produce there are kept, as constructors of [number].
    - A regular expression object is its source plus its mutable [lastIndex].
      All four regular expressions of [defaultOptions] carry the [g] flag, so
      [RegExp.prototype.test] reads and writes [lastIndex]; this state is
      threaded through every function that touches a regular expression.
    - [Math.random] is an oracle: the sequence of doubles it will return,
      given by their 53-bit numerators, with a counter of the draws made.
    - The object used as a set of codes is a [gset string] of its own keys;
      a key named [hasOwnProperty] shadows the method of that name.
    - A call ends in a [completion]: it returns, it throws, or the model's
      fuel for the unbounded retry loop is used up. *)

From Stdlib Require Import ZArith QArith Qround Qpower Lqa String Ascii List Lia.
From stdpp Require Import base tactics decidable option list gmap sets strings.
Import ListNotations.

#[local] Open Scope string_scope.
#[local] Open Scope nat_scope.

(** ** The JavaScript runtime the module relies on *)

Module JS.

(** A JavaScript number as far as this program can tell them apart. *)
Inductive number : Type :=
| Finite (z : Z)
| PosInfinity
| NegInfinity
| NaN.

(** [a < b] on numbers: every comparison with [NaN] is false. *)
Definition number_ltb (a b : number) : bool :=
  match a, b with
  | NaN, _ | _, NaN => false
  | Finite x, Finite y => (x <? y)%Z
  | NegInfinity, NegInfinity => false
  | NegInfinity, _ => true
  | _, NegInfinity => false
  | PosInfinity, _ => false
  | Finite _, PosInfinity => true
  end.

(** The characters of a string, and membership in an alphabet. *)
Definition chars (s : string) : list ascii := list_ascii_of_string s.

Definition drawnFrom (alphabet text : string) : Prop :=
  Forall (fun c => In c (chars alphabet)) (chars text).

(** [s.charAt(i)]: the character as a one-character string, or the empty
    string when [i] is out of range. *)
Definition charAt (s : string) (i : nat) : string :=
  match String.get i s with
  | Some c => String c ""
  | None => ""
  end.

(** The suffix of [s] from index [n] on. *)
Fixpoint skipn_string (n : nat) (s : string) : string :=
  match n, s with
  | O, _ => s
  | S n', String _ rest => skipn_string n' rest
  | S _, EmptyString => EmptyString
  end.

(** *** Regular expressions

    The four expressions of the module are one character followed by a plus
    sign, or one character not followed by a plus sign
    (a negative look-ahead).  [more] tells the two shapes apart. *)
Record Source : Type := { lead : ascii; more : bool }.

Record RegExp : Type := { source : Source; lastIndex : nat }.

Definition withLastIndex (r : RegExp) (i : nat) : RegExp :=
  {| source := source r; lastIndex := i |}.

Definition startsWithPlus (s : string) : bool :=
  match s with
  | String "+" _ => true
  | _ => false
  end.

(** The length of the match of [src] at the very start of [s], if any. *)
Definition matchHere (src : Source) (s : string) : option nat :=
  match s with
  | String c rest =>
      if Ascii.eqb c (lead src) then
        if more src
        then (if startsWithPlus rest then Some 2 else None)
        else (if startsWithPlus rest then None else Some 1)
      else None
  | EmptyString => None
  end.

(** The first match in [s], whose first character has index [i] in the
    whole string: the index and the length of the match. *)
Fixpoint search (src : Source) (s : string) (i : nat) : option (nat * nat) :=
  match matchHere src s with
  | Some n => Some (i, n)
  | None =>
      match s with
      | String _ rest => search src rest (S i)
      | EmptyString => None
      end
  end.

(** [r.test(s)] for a regular expression with the [g] flag: the search
    starts at [lastIndex]; a match moves [lastIndex] to its end, a failure
    resets it to 0. *)
Definition RegExp_test (r : RegExp) (s : string) : bool * RegExp :=
  if String.length s <? lastIndex r then (false, withLastIndex r 0)
  else
    match search (source r) (skipn_string (lastIndex r) s) (lastIndex r) with
    | Some (i, n) => (true, withLastIndex r (i + n))
    | None => (false, withLastIndex r 0)
    end.

(** All matches of [src] in [s], left to right and not overlapping; [skip]
    characters of [s] belong to the previous match. *)
Fixpoint matches (src : Source) (s : string) (skip : nat) : list string :=
  match s with
  | EmptyString => []
  | String _ rest =>
      match skip with
      | S k => matches src rest k
      | O =>
          match matchHere src s with
          | Some n => String.substring 0 n s :: matches src rest (n - 1)
          | None => matches src rest 0
          end
      end
  end.

(** [s.match(r)] for a regular expression with the [g] flag: [lastIndex] is
    set to 0 before the search and is 0 after it; the result is [null]
    ([None]) when nothing matches. *)
Definition String_match (s : string) (r : RegExp) : option (list string) * RegExp :=
  (match matches (source r) s 0 with
   | [] => None
   | m :: ms => Some (m :: ms)
   end, withLastIndex r 0).

(** The first alternative of a combined expression that matches at the start
    of [s]: the number of its capture group (from [g] on) and the length of
    the match. *)
Fixpoint firstAlternative (alts : list Source) (s : string) (g : nat)
  : option (nat * nat) :=
  match alts with
  | [] => None
  | src :: alts' =>
      match matchHere src s with
      | Some n => Some (g, n)
      | None => firstAlternative alts' s (S g)
      end
  end.

(** [s.replace(combined, callback)] for a fresh combined expression with the
    [g] flag.  The callback is told which capture group is defined; it may
    change the state [Σ] it closes over, and [None] stands for a callback
    that never returns.  Text between matches is copied. *)
Fixpoint String_replace {Σ : Type} (alts : list Source)
    (callback : nat -> Σ -> option (string * Σ))
    (s : string) (skip : nat) (st : Σ) : option (string * Σ) :=
  match s with
  | EmptyString => Some ("", st)
  | String c rest =>
      match skip with
      | S k => String_replace alts callback rest k st
      | O =>
          match firstAlternative alts s 0 with
          | Some (g, n) =>
              match callback g st with
              | Some (w, st1) =>
                  match String_replace alts callback rest (n - 1) st1 with
                  | Some (out, st2) => Some (w ++ out, st2)
                  | None => None
                  end
              | None => None
              end
          | None =>
              match String_replace alts callback rest 0 st with
              | Some (out, st1) => Some (String c out, st1)
              | None => None
              end
          end
      end
  end.

(** *** Math *)

Definition two53 : positive := 9007199254740992.

(** The [k]-th value [Math.random()] returns: a double in the interval from
    0 (included) to 1 (excluded). *)
Definition Math_random (rnd : nat -> Z) (k : nat) : Q :=
  Qmake (rnd k mod Zpos two53) two53.

(** *** Numbers

    A finite Number is a double: a rational with 53 significant bits.  The
    results of [*] and [/] are the exact results rounded to the nearest
    double, a tie going to the neighbour with an even significand.  The
    exponent range is left unbounded: the module multiplies counts by a
    sparsity of 1 or more, where nothing is subnormal, and a product beyond
    the largest double fails the capacity check as [Infinity] does; the
    quotient [possible / sparsity] is only looked at through [Math.round],
    which gives 0 for every subnormal. *)

(** The binade of a positive [q]: the [b] with [2 ^ b <= q < 2 ^ (b + 1)]. *)
Definition binade (q : Q) : Z :=
  if Qle_bool 1 q then Z.log2 (Qfloor q) else (- Z.log2_up (Qceiling (/ q)))%Z.

(** To the nearest integer, a half to the even one. *)
Definition roundHalfEven (q : Q) : Z :=
  let f := Qfloor q in
  match (q - inject_Z f ?= 1 # 2)%Q with
  | Lt => f
  | Gt => (f + 1)%Z
  | Eq => if Z.even f then f else (f + 1)%Z
  end.

(** A positive [q] to 53 significant bits. *)
Definition nearest (q : Q) : Q :=
  let e := (binade q - 52)%Z in
  (inject_Z (roundHalfEven (q / 2 ^ e)) * 2 ^ e)%Q.

(** The Number value for [q]: the double nearest to it. *)
Definition toDouble (q : Q) : Q :=
  match (q ?= 0)%Q with
  | Eq => 0%Q
  | Gt => nearest q
  | Lt => (- nearest (- q))%Q
  end.

(** [x * y] and [x / y] on Numbers. *)
Definition Number_mul (x y : Q) : Q := toDouble (x * y).

Definition Number_div (x y : Q) : Q := toDouble (x / y).

(** [Math.ceil] *)
Definition Math_ceil (q : Q) : Z := Qceiling q.

(** [Math.round]: to the nearest integer, halves upwards. *)
Definition Math_round (q : Q) : Z := Qfloor (q + (1 # 2)).

(** The least [e] with [n <= acc * b ^ e], searched upwards from 0. *)
Fixpoint ceilLogFrom (fuel : nat) (b n acc : Z) : Z :=
  match fuel with
  | O => 0
  | S fuel' => if (n <=? acc)%Z then 0 else 1 + ceilLogFrom fuel' b n (acc * b)
  end.

(** [Math.ceil(Math.log(n) / Math.log(b))] on integers [n] and [b >= 0].
    - [Math.log] of a negative number is [NaN], of 0 is [-Infinity], of 1 is
      0; so [b = 0] and [b = 1] divide by [-Infinity] and by 0.
    - For [b >= 2] and [n >= 1] the logarithms are taken exactly, which
      gives the least [e] with [n <= b ^ e].  With the logarithms of an
      engine the rounded quotient can lie just above an integer that the
      exact one equals, and the result is then one more: 125 over 5
      characters gives 4, not 3.  Both are 0 for [n = 1], at least 1 for
      [n >= 2], and neither decreases when [n] grows (the logarithm of the
      engine being monotone). *)
Definition ceilLogRatio (n b : Z) : number :=
  if (n <? 0)%Z then NaN
  else if (n =? 0)%Z then (if (b =? 0)%Z then NaN else NegInfinity)
  else if (b =? 0)%Z then Finite 0
  else if (b =? 1)%Z then (if (n =? 1)%Z then NaN else PosInfinity)
  else Finite (ceilLogFrom (S (Z.to_nat (Z.log2_up n))) b n 1).

(** How often the body of [for (let i = 0; i < howMany; i++)] runs;
    [undefined] ([None] on the left) compares like [NaN], and the loop never
    ends ([None] on the right) for [Infinity]. *)
Definition iterations (howMany : option number) : option nat :=
  match howMany with
  | None => Some 0
  | Some (Finite z) => Some (Z.to_nat z)
  | Some PosInfinity => None
  | Some NegInfinity => Some 0
  | Some NaN => Some 0
  end.

(** [a.shift()]: the first element ([undefined] when there is none) and
    what is left of the array. *)
Definition shift {A : Type} (a : list A) : option A * list A :=
  match a with
  | [] => (None, [])
  | x :: a' => (Some x, a')
  end.

End JS.

(** ** The module *)

Module CodeGenerator.
Import JS.

(** What a call throws.  The [Error] of [checkRequestedCode] is kept as the
    four values its message is built from; the two [TypeError]s are raised
    by the runtime. *)
Inductive error : Type :=
| Error_CannotGenerate (howMany : nat) (maximum : Z) (existing : nat) (sparsity : Q)
| TypeError_AssignmentToConstant
| TypeError_NotAFunction.

Inductive completion (A : Type) : Type :=
| Returned (a : A)
| Threw (e : error)
| OutOfFuel.

Arguments Returned {A} a.
Arguments Threw {A} e.
Arguments OutOfFuel {A}.

(** The value of [options.existingCodesLoader]: a function from the pattern
    to an array of codes, or anything else. *)
Inductive loader : Type :=
| LoaderFunction (f : string -> list string)
| NotAFunction.

Record Options : Type := {
  alphanumericChars : string;
  numericChars : string;
  alphanumericRegex : RegExp;
  numericRegex : RegExp;
  alphanumericMoreRegex : RegExp;
  numericMoreRegex : RegExp;
  sparsity : Q;
  existingCodesLoader : loader
}.

(** The [options] argument: each property may be absent. *)
Record UserOptions : Type := {
  alphanumericChars' : option string;
  numericChars' : option string;
  alphanumericRegex' : option RegExp;
  numericRegex' : option RegExp;
  alphanumericMoreRegex' : option RegExp;
  numericMoreRegex' : option RegExp;
  sparsity' : option Q;
  existingCodesLoader' : option loader
}.

(** [options] omitted, or [{}]. *)
Definition noOptions : UserOptions :=
  {| alphanumericChars' := None; numericChars' := None;
     alphanumericRegex' := None; numericRegex' := None;
     alphanumericMoreRegex' := None; numericMoreRegex' := None;
     sparsity' := None; existingCodesLoader' := None |}.

Definition regexp (c : ascii) (plus : bool) : RegExp :=
  {| source := {| lead := c; more := plus |}; lastIndex := 0 |}.

(** The object [defaultOptions] as the module creates it. *)
Definition defaultOptions : Options :=
  {| alphanumericChars := "123456789ABCDEFGHJKLMNPQRSTUVWXYZ";
     numericChars := "0123456789";
     alphanumericRegex := regexp "*" false;
     numericRegex := regexp "#" false;
     alphanumericMoreRegex := regexp "*" true;
     numericMoreRegex := regexp "#" true;
     sparsity := 1;
     existingCodesLoader := LoaderFunction (fun _ => []) |}.

(** Assignments to one property of an options object. *)
Definition set_alphanumericRegex (r : RegExp) (o : Options) : Options :=
  {| alphanumericChars := alphanumericChars o; numericChars := numericChars o;
     alphanumericRegex := r; numericRegex := numericRegex o;
     alphanumericMoreRegex := alphanumericMoreRegex o;
     numericMoreRegex := numericMoreRegex o;
     sparsity := sparsity o; existingCodesLoader := existingCodesLoader o |}.

Definition set_numericRegex (r : RegExp) (o : Options) : Options :=
  {| alphanumericChars := alphanumericChars o; numericChars := numericChars o;
     alphanumericRegex := alphanumericRegex o; numericRegex := r;
     alphanumericMoreRegex := alphanumericMoreRegex o;
     numericMoreRegex := numericMoreRegex o;
     sparsity := sparsity o; existingCodesLoader := existingCodesLoader o |}.

Definition set_alphanumericMoreRegex (r : RegExp) (o : Options) : Options :=
  {| alphanumericChars := alphanumericChars o; numericChars := numericChars o;
     alphanumericRegex := alphanumericRegex o; numericRegex := numericRegex o;
     alphanumericMoreRegex := r;
     numericMoreRegex := numericMoreRegex o;
     sparsity := sparsity o; existingCodesLoader := existingCodesLoader o |}.

Definition set_numericMoreRegex (r : RegExp) (o : Options) : Options :=
  {| alphanumericChars := alphanumericChars o; numericChars := numericChars o;
     alphanumericRegex := alphanumericRegex o; numericRegex := numericRegex o;
     alphanumericMoreRegex := alphanumericMoreRegex o;
     numericMoreRegex := r;
     sparsity := sparsity o; existingCodesLoader := existingCodesLoader o |}.

Definition set_sparsity (s : Q) (o : Options) : Options :=
  {| alphanumericChars := alphanumericChars o; numericChars := numericChars o;
     alphanumericRegex := alphanumericRegex o; numericRegex := numericRegex o;
     alphanumericMoreRegex := alphanumericMoreRegex o;
     numericMoreRegex := numericMoreRegex o;
     sparsity := s; existingCodesLoader := existingCodesLoader o |}.

(** [mergeOptions]: a new object with, for each property of the defaults, the
    caller's value when the caller has the property and the default
    otherwise.  Regular expressions are objects: the merged object shares
    them with whoever owns them. *)
Definition mergeOptions (defaultOptions : Options) (options : UserOptions) : Options :=
  {| alphanumericChars := default (alphanumericChars defaultOptions) (alphanumericChars' options);
     numericChars := default (numericChars defaultOptions) (numericChars' options);
     alphanumericRegex := default (alphanumericRegex defaultOptions) (alphanumericRegex' options);
     numericRegex := default (numericRegex defaultOptions) (numericRegex' options);
     alphanumericMoreRegex :=
       default (alphanumericMoreRegex defaultOptions) (alphanumericMoreRegex' options);
     numericMoreRegex := default (numericMoreRegex defaultOptions) (numericMoreRegex' options);
     sparsity := default (sparsity defaultOptions) (sparsity' options);
     existingCodesLoader :=
       default (existingCodesLoader defaultOptions) (existingCodesLoader' options) |}.

(** [convertToObject]: every element of the array becomes a key.  Any
    string is an ordinary key, [__proto__] included: Deno, the runtime the
    module is written for, removes the accessor of that name from
    [Object.prototype]. *)
Definition convertToObject (ary : list string) : gset string :=
  fold_left (fun obj el => {[ el ]} ∪ obj) ary ∅.

Definition loadExistingCodes (pattern : string) (options : Options) : gset string :=
  let existingCodes :=
    match existingCodesLoader options with
    | LoaderFunction f => f pattern
    | NotAFunction => []
    end in
  convertToObject existingCodes.

(** [existingCodes.hasOwnProperty(code)].  The method is looked up on the
    object itself first: once the object has a key of that very name, whose
    value is [true], the call throws ([None]). *)
Definition hasOwnProperty (existingCodes : gset string) (code : string) : option bool :=
  if bool_decide ("hasOwnProperty" ∈ existingCodes) then None
  else Some (bool_decide (code ∈ existingCodes)).

(** [randomChars]: [howMany] draws, each appending
    [allowedChars.charAt(Math.floor(Math.random() * allowedChars.length))];
    [k] counts the draws made so far. *)
Fixpoint randomChars_from (allowedChars : string) (howMany : nat) (text : string)
    (rnd : nat -> Z) (k : nat) : string * nat :=
  match howMany with
  | O => (text, k)
  | S n =>
      let i := Qfloor (Math_random rnd k * inject_Z (Z.of_nat (String.length allowedChars))) in
      randomChars_from allowedChars n (text ++ charAt allowedChars (Z.to_nat i)) rnd (S k)
  end.

Definition randomChars (allowedChars : string) (howMany : nat)
    (rnd : nat -> Z) (k : nat) : string * nat :=
  randomChars_from allowedChars howMany "" rnd k.

Definition countPermutations (pattern : string) (matcher : RegExp) (chars : string)
  : Z * RegExp :=
  let (found, matcher) := String_match pattern matcher in
  (match found with
   | Some ms => Z.of_nat (String.length chars) ^ Z.of_nat (List.length ms)
   | None => 0
   end%Z, matcher).

Definition countNonRepeatingPermutations (pattern : string) (options : Options)
  : Z * Options :=
  let (numericPermutations, r) :=
    countPermutations pattern (numericRegex options) (numericChars options) in
  let options := set_numericRegex r options in
  let (alphanumericPermutations, r) :=
    countPermutations pattern (alphanumericRegex options) (alphanumericChars options) in
  let options := set_alphanumericRegex r options in
  if ((0 <? numericPermutations) && (0 <? alphanumericPermutations))%Z
  then ((numericPermutations * alphanumericPermutations)%Z, options)
  else ((numericPermutations + alphanumericPermutations)%Z, options).

(** [checkRequestedCode]: the error it throws, if it throws. *)
Definition checkRequestedCode (pattern : string) (options : Options)
    (existingCountSparse howManySparse : Z) (howMany existingCount : nat)
  : option error * Options :=
  let (possible, options) := countNonRepeatingPermutations pattern options in
  let available := (possible - existingCountSparse)%Z in
  if (available <? howManySparse)%Z
  then (Some (Error_CannotGenerate howMany
                (Math_round (Number_div (inject_Z possible) (sparsity options)))
                existingCount (sparsity options)), options)
  else (None, options).

Definition neededChars (howMany : Z) (allowedChars : string) : number :=
  ceilLogRatio howMany (Z.of_nat (String.length allowedChars)).

Definition combineRegexps (regexps : list RegExp) : list Source :=
  map source regexps.

Definition matchCount (found : option (list string)) : nat :=
  match found with
  | Some ms => List.length ms
  | None => 0
  end.

(** [Math.ceil(a / b)] for integers [a >= 1] and [b >= 1]. *)
Definition ceilDiv (a b : Z) : Z := ((a + b - 1) / b)%Z.

(** The two values [calculateRepetitions] computes before it walks the
    pattern: the reassigned [howMany] and [distribute]. *)
Definition deficit (howMany nonRepeatingPermutations existing : Z) : Z :=
  Z.max 1 (howMany - nonRepeatingPermutations + existing).

(** [calculateRepetitions]: one length for each variable-length placeholder,
    from left to right.  [distribute] is only read when a placeholder is
    found, and then [totalMatches] is at least 1. *)
Definition calculateRepetitions (pattern : string) (howMany existing : Z)
    (options : Options) : list number * Options :=
  let (nonRepeatingPermutations, options) := countNonRepeatingPermutations pattern options in
  let (alphanumericMatches, r) := String_match pattern (alphanumericMoreRegex options) in
  let options := set_alphanumericMoreRegex r options in
  let (numericMatches, r) := String_match pattern (numericMoreRegex options) in
  let options := set_numericMoreRegex r options in
  let howMany := deficit howMany nonRepeatingPermutations existing in
  let totalMatches := matchCount alphanumericMatches + matchCount numericMatches in
  let distribute := ceilDiv howMany (Z.of_nat totalMatches) in
  let combined :=
    combineRegexps [alphanumericMoreRegex options; numericMoreRegex options] in
  let walk :=
    String_replace combined
      (fun group repetitions =>
         match group with
         | 0 => Some ("undefined",
                      (repetitions ++ [neededChars distribute (alphanumericChars options)])%list)
         | _ => Some ("undefined",
                      (repetitions ++ [neededChars distribute (numericChars options)])%list)
         end)
      pattern 0 [] in
  (match walk with
   | Some (_, repetitions) => repetitions
   | None => []
   end, options).

Definition hasMorePlaceholder (pattern : string) (options : Options) : bool * Options :=
  let (found, r) := RegExp_test (alphanumericMoreRegex options) pattern in
  let options := set_alphanumericMoreRegex r options in
  if found then (true, options)
  else
    let (found, r) := RegExp_test (numericMoreRegex options) pattern in
    (found, set_numericMoreRegex r options).

(** The callback [generateCodes] passes to [pattern.replace]: the capture
    groups are, in this order, [alphanumericMore], [numericMore],
    [alphanumeric] and [numeric].  Its state is the array [rep] and the
    number of random draws made. *)
Definition substitute (options : Options) (rnd : nat -> Z) (group : nat)
    (st : list number * nat) : option (string * (list number * nat)) :=
  let (rep, k) := st in
  match group with
  | 0 =>
      let (count, rep) := shift rep in
      match iterations count with
      | Some n =>
          let (text, k) := randomChars (alphanumericChars options) n rnd k in
          Some (text, (rep, k))
      | None => None
      end
  | 1 =>
      let (count, rep) := shift rep in
      match iterations count with
      | Some n =>
          let (text, k) := randomChars (numericChars options) n rnd k in
          Some (text, (rep, k))
      | None => None
      end
  | 2 =>
      let (text, k) := randomChars (alphanumericChars options) 1 rnd k in
      Some (text, (rep, k))
  | _ =>
      let (text, k) := randomChars (numericChars options) 1 rnd k in
      Some (text, (rep, k))
  end.

(** The loop [while (generated.length < howMany)].  Each round takes one
    unit of [fuel]; a round whose code is already a key of [existingCodes]
    changes nothing but the random draws. *)
Fixpoint generate (fuel : nat) (pattern : string) (howMany : nat) (options : Options)
    (combinedRegexp : list Source) (repetitions : list number) (rnd : nat -> Z)
    (existingCodes : gset string) (generated : list string) (k : nat)
  : completion (list string) :=
  if List.length generated <? howMany then
    match fuel with
    | O => OutOfFuel
    | S fuel' =>
        let rep := repetitions in
        match String_replace combinedRegexp (substitute options rnd) pattern 0 (rep, k) with
        | None => OutOfFuel
        | Some (code, (_, k)) =>
            match hasOwnProperty existingCodes code with
            | None => Threw TypeError_NotAFunction
            | Some true =>
                generate fuel' pattern howMany options combinedRegexp repetitions rnd
                  existingCodes generated k
            | Some false =>
                generate fuel' pattern howMany options combinedRegexp repetitions rnd
                  ({[ code ]} ∪ existingCodes) (generated ++ [code])%list k
            end
        end
    end
  else Returned generated.

(** [howMany || 1]: an omitted [howMany] ([None]) and 0 both give 1. *)
Definition orOne (howMany : option nat) : nat :=
  match howMany with
  | Some (S n) => S n
  | _ => 1
  end.

(** [if (options.sparsity < 1) options.sparsity = 1] *)
Definition clampSparsity (options : Options) : Options :=
  if Qle_bool 1 (sparsity options) then options else set_sparsity 1 options.

(** [Math.ceil(count * options.sparsity)] *)
Definition sparse (count : nat) (options : Options) : Z :=
  Math_ceil (Number_mul (inject_Z (Z.of_nat count)) (sparsity options)).

(** [generateCodes].  [defaults] is the module's [defaultOptions] object as
    it stands when the call is made, [rnd] the values [Math.random] is going
    to return and [fuel] a bound on the rounds of the retry loop.  The result
    is how the call ends, and the merged options object as the call leaves
    it: its regular expressions are the shared ones.

    [repetitions] is declared with [const]: the assignment on the
    variable-length path evaluates [calculateRepetitions] and then throws a
    [TypeError], in strict mode as in any module. *)
Definition generateCodes (pattern : string) (howMany : option nat) (options : UserOptions)
    (defaults : Options) (rnd : nat -> Z) (fuel : nat)
  : completion (list string) * Options :=
  let options := mergeOptions defaults options in
  let options := clampSparsity options in
  let howMany := orOne howMany in
  let howManySparse := sparse howMany options in
  let repetitions : list number := [] in
  let existingCodes := loadExistingCodes pattern options in
  let existingCount := size existingCodes in
  let existingCountSparse := sparse existingCount options in
  let (variable, options) := hasMorePlaceholder pattern options in
  if variable then
    let (_, options) :=
      calculateRepetitions pattern howManySparse existingCountSparse options in
    (Threw TypeError_AssignmentToConstant, options)
  else
    let (failure, options) :=
      checkRequestedCode pattern options existingCountSparse howManySparse
        howMany existingCount in
    match failure with
    | Some e => (Threw e, options)
    | None =>
        let combinedRegexp :=
          combineRegexps [alphanumericMoreRegex options; numericMoreRegex options;
                          alphanumericRegex options; numericRegex options] in
        (generate fuel pattern howMany options combinedRegexp repetitions rnd
           existingCodes [] 0, options)
    end.

End CodeGenerator.

(** ** What the specification talks about *)

Module Spec.
Import JS CodeGenerator.

(** [tok] occurs in [s]. *)
Definition occurs (tok s : string) : Prop :=
  exists pre post, s = pre ++ tok ++ post.

(** The pattern holds a variable-length placeholder. *)
Definition hasVariableToken (pattern : string) : Prop :=
  occurs "*+" pattern \/ occurs "#+" pattern.

(** The options use the placeholder syntax of the module: the four regular
    expressions have the sources of [defaultOptions], whatever their
    [lastIndex]. *)
Definition standardSyntax (o : Options) : Prop :=
  source (alphanumericRegex o) = {| lead := "*"; more := false |} /\
  source (numericRegex o) = {| lead := "#"; more := false |} /\
  source (alphanumericMoreRegex o) = {| lead := "*"; more := true |} /\
  source (numericMoreRegex o) = {| lead := "#"; more := true |}.

(** Two states of one options object that differ at most in the [lastIndex]
    of its regular expressions. *)
Definition sameSettings (o o' : Options) : Prop :=
  alphanumericChars o' = alphanumericChars o /\
  numericChars o' = numericChars o /\
  source (alphanumericRegex o') = source (alphanumericRegex o) /\
  source (numericRegex o') = source (numericRegex o) /\
  source (alphanumericMoreRegex o') = source (alphanumericMoreRegex o) /\
  source (numericMoreRegex o') = source (numericMoreRegex o) /\
  sparsity o' = sparsity o /\
  existingCodesLoader o' = existingCodesLoader o.

(** The options object a call works with, before any regular expression is
    used: merged and with its sparsity clamped. *)
Definition effective (defaults : Options) (options : UserOptions) : Options :=
  clampSparsity (mergeOptions defaults options).

(** The array the existing-codes loader supplies for a call. *)
Definition supplied (pattern : string) (o : Options) : list string :=
  match existingCodesLoader o with
  | LoaderFunction f => f pattern
  | NotAFunction => []
  end.

(** The number of permutations each variable-length placeholder has to
    supply: the value of [distribute] in [calculateRepetitions]. *)
Definition perTokenTarget (pattern : string) (howMany existing : Z) (o : Options) : Z :=
  ceilDiv
    (deficit howMany (fst (countNonRepeatingPermutations pattern o)) existing)
    (Z.of_nat
       (matchCount (fst (String_match pattern (alphanumericMoreRegex o)))
        + matchCount (fst (String_match pattern (numericMoreRegex o))))).

(** The array of lengths [generateCodes] computes on the variable-length
    path, with the arguments it passes to [calculateRepetitions]. *)
Definition plannedRepetitions (pattern : string) (howMany : option nat)
    (options : UserOptions) (defaults : Options) : list number :=
  let o := effective defaults options in
  fst (calculateRepetitions pattern (sparse (orOne howMany) o)
         (sparse (size (loadExistingCodes pattern o)) o)
         (snd (hasMorePlaceholder pattern o))).

(** What one fixed placeholder with alphabet [alphabet] may be replaced by:
    one character of the alphabet, or nothing when the alphabet is empty. *)
Definition oneFrom (alphabet text : string) : Prop :=
  drawnFrom alphabet text /\
  String.length text = Nat.min 1 (String.length alphabet).

(** [code] has the shape of [pattern]: read from left to right, the tokens
    [*+] and [#+] stand for any run of characters of their alphabet, [*] and
    [#] not followed by a plus sign for [oneFrom] their alphabet, and every
    other character for itself. *)
Inductive conforms (alphanumeric numeric : string) : string -> string -> Prop :=
| conforms_end :
    conforms alphanumeric numeric "" ""
| conforms_alphanumericMore pattern code text :
    drawnFrom alphanumeric text ->
    conforms alphanumeric numeric pattern code ->
    conforms alphanumeric numeric (String "*" (String "+" pattern)) (text ++ code)
| conforms_numericMore pattern code text :
    drawnFrom numeric text ->
    conforms alphanumeric numeric pattern code ->
    conforms alphanumeric numeric (String "#" (String "+" pattern)) (text ++ code)
| conforms_alphanumeric pattern code text :
    startsWithPlus pattern = false ->
    oneFrom alphanumeric text ->
    conforms alphanumeric numeric pattern code ->
    conforms alphanumeric numeric (String "*" pattern) (text ++ code)
| conforms_numeric pattern code text :
    startsWithPlus pattern = false ->
    oneFrom numeric text ->
    conforms alphanumeric numeric pattern code ->
    conforms alphanumeric numeric (String "#" pattern) (text ++ code)
| conforms_literal c pattern code :
    c <> "*"%char -> c <> "#"%char ->
    conforms alphanumeric numeric pattern code ->
    conforms alphanumeric numeric (String c pattern) (String c code).

(** The alternatives of the combined expression of [generateCodes] under
    the syntax of the module. *)
Definition standardAlternatives : list Source :=
  [ {| lead := "*"; more := true |}; {| lead := "#"; more := true |};
    {| lead := "*"; more := false |}; {| lead := "#"; more := false |} ].

(** *** Data for the concrete scenarios *)

(** A sequence of random doubles: the [k]-th is about [0.078 + 0.137 * k],
    taken modulo 1. *)
Definition rnd0 (k : nat) : Z :=
  (Z.of_nat k * 1234567890123457 + 700000000000000)%Z.

(** The double whose first decimal is [d]. *)
Definition tenth (d : nat) : Z := (Z.of_nat d * 900719925474100)%Z.

(** The draws 9, 5, 9, 6, 9, 7, 9, 8, 9, 9, and 0 from then on. *)
Definition rnd95 (k : nat) : Z :=
  if k <? 10 then (if Nat.even k then tenth 9 else tenth (5 + k / 2)) else 0%Z.

Definition digit (d : nat) : ascii := ascii_of_nat (48 + d).

Definition twoDigits (n : nat) : string :=
  String (digit (n / 10)) (String (digit (n mod 10)) "").

(** The 95 codes from 00 to 94. *)
Definition codes95 : list string := map twoDigits (seq 0 95).





Definition loading (codes : list string) : UserOptions :=
  {| alphanumericChars' := None; numericChars' := None;
     alphanumericRegex' := None; numericRegex' := None;
     alphanumericMoreRegex' := None; numericMoreRegex' := None;
     sparsity' := None;
     existingCodesLoader' := Some (LoaderFunction (fun _ => codes)) |}.

(** The options of the scenario with pattern V-#+. *)
Definition voucherOptions : UserOptions :=
  {| alphanumericChars' := None; numericChars' := Some "0123456789";
     alphanumericRegex' := None; numericRegex' := None;
     alphanumericMoreRegex' := None; numericMoreRegex' := None;
     sparsity' := Some 1%Q; existingCodesLoader' := Some (LoaderFunction (fun _ => [])) |}.

(** The caller's options with the property [sparsity] set to [s]. *)
Definition withSparsity (s : Q) (options : UserOptions) : UserOptions :=
  {| alphanumericChars' := alphanumericChars' options;
     numericChars' := numericChars' options;
     alphanumericRegex' := alphanumericRegex' options;
     numericRegex' := numericRegex' options;
     alphanumericMoreRegex' := alphanumericMoreRegex' options;
     numericMoreRegex' := numericMoreRegex' options;
     sparsity' := Some s;
     existingCodesLoader' := existingCodesLoader' options |}.

(** The double that the literal 1.1 denotes. *)
Definition double_1_1 : Q := toDouble (11 # 10).

(** Options with an empty numeric alphabet. *)
Definition noDigits : UserOptions :=
  {| alphanumericChars' := None; numericChars' := Some "";
     alphanumericRegex' := None; numericRegex' := None;
     alphanumericMoreRegex' := None; numericMoreRegex' := None;
     sparsity' := None; existingCodesLoader' := None |}.

End Spec.

(** ** Doubles: rounding to the nearest *)

Module DoubleFacts.
Import JS.
#[local] Open Scope Q_scope.

Lemma pow2_pos (e : Z) : 0 < 2 ^ e.
Proof. apply Qpower_0_lt. reflexivity. Qed.

Lemma pow2_le (a b : Z) : (a <= b)%Z -> 2 ^ a <= 2 ^ b.
Proof. intros H. apply Qpower_le_compat_l; [exact H|]. discriminate. Qed.

Lemma pow2_inject (k : Z) : (0 <= k)%Z -> 2 ^ k == inject_Z (2 ^ k).
Proof.
  intros Hk. rewrite Zpower_Qpower by exact Hk. reflexivity.
Qed.

Lemma pow2_plus (a b : Z) : 2 ^ (a + b) == 2 ^ a * 2 ^ b.
Proof. apply Qpower_plus. discriminate. Qed.

Lemma binade_spec (q : Q) : 0 < q -> 2 ^ binade q <= q /\ q < 2 ^ (binade q + 1).
Proof.
  intros Hq. unfold binade. destruct (Qle_bool 1 q) eqn:H1.
  - apply Qle_bool_iff in H1.
    assert (1 <= Qfloor q)%Z as Hf.
    { rewrite <- (Qfloor_Z 1). now apply Qfloor_resp_le. }
    destruct (Z.log2_spec (Qfloor q) ltac:(lia)) as [Hlo Hhi].
    pose proof (Z.log2_nonneg (Qfloor q)) as Hnn.
    split.
    + rewrite pow2_inject by exact Hnn.
      apply Qle_trans with (inject_Z (Qfloor q)); [|apply Qfloor_le].
      rewrite <- Zle_Qle. exact Hlo.
    + rewrite pow2_inject by lia.
      apply Qlt_le_trans with (inject_Z (Qfloor q + 1)); [apply Qlt_floor|].
      rewrite <- Zle_Qle. replace (Z.log2 (Qfloor q) + 1)%Z with (Z.succ (Z.log2 (Qfloor q))) by lia.
      lia.
  - assert (q < 1) as Hlt.
    { apply Qnot_le_lt. intros H. apply Qle_bool_iff in H. congruence. }
    set (c := Qceiling (/ q)).
    assert (1 < / q) as Hinv.
    { apply Qlt_shift_inv_l; [exact Hq|]. lra. }
    assert (2 <= c)%Z as Hc.
    { assert (inject_Z 1 < inject_Z c) as H.
      { apply Qlt_le_trans with (/ q); [exact Hinv|apply Qle_ceiling]. }
      rewrite <- Zlt_Qlt in H. lia. }
    destruct (Z.log2_up_spec c ltac:(lia)) as [Hlo Hhi].
    pose proof (Z.log2_up_pos c ltac:(lia)) as Hk.
    set (k := Z.log2_up c) in *.
    assert (0 < / q) as Hinvpos by lra.
    split.
    + (* 2^-k <= q  from  /q <= c <= 2^k *)
      rewrite Qpower_opp, pow2_inject by lia.
      assert (/ q <= inject_Z (2 ^ k)) as H.
      { apply Qle_trans with (inject_Z c); [apply Qle_ceiling|]. now rewrite <- Zle_Qle. }
      assert (0 < inject_Z (2 ^ k)) as Hp by lra.
      apply Qle_shift_inv_r; [exact Hp|].
      apply Qle_trans with (q * / q); [rewrite Qmult_inv_r; lra|].
      apply Qmult_le_l; assumption.
    + (* q < 2^(-k+1) from 2^(k-1) < c, c - 1 < /q *)
      replace (- k + 1)%Z with (- (k - 1))%Z by lia.
      rewrite Qpower_opp, pow2_inject by lia.
      assert (inject_Z (2 ^ (k - 1)) < / q) as H.
      { apply Qle_lt_trans with (inject_Z (c - 1)); [|apply Qceiling_lt].
        rewrite <- Zle_Qle. replace (Z.pred k) with (k - 1)%Z in Hlo by lia. lia. }
      assert (0 < inject_Z (2 ^ (k - 1))) as Hp.
      { replace 0 with (inject_Z 0) by reflexivity. rewrite <- Zlt_Qlt.
        apply Z.pow_pos_nonneg; lia. }
      apply Qlt_shift_inv_l; [exact Hp|].
      apply Qlt_le_trans with (q * / q); [|rewrite Qmult_inv_r; lra].
      apply Qmult_lt_l; assumption.
Qed.


Lemma binade_mono (x y : Q) : 0 < x -> x <= y -> (binade x <= binade y)%Z.
Proof.
  intros Hx Hxy. destruct (binade_spec x Hx) as [Hx1 _].
  destruct (binade_spec y ltac:(lra)) as [_ Hy2].
  destruct (Z.le_gt_cases (binade x) (binade y)) as [H|H]; [exact H|exfalso].
  pose proof (pow2_le (binade y + 1) (binade x) ltac:(lia)). lra.
Qed.

Lemma Qle_bool_comp (a x y : Q) : x == y -> Qle_bool a x = Qle_bool a y.
Proof.
  intros E. destruct (Qle_bool a y) eqn:H.
  - apply Qle_bool_iff. apply Qle_bool_iff in H. lra.
  - destruct (Qle_bool a x) eqn:H'; [|reflexivity].
    apply Qle_bool_iff in H'. assert (a <= y) as H'' by lra.
    apply Qle_bool_iff in H''. congruence.
Qed.

Lemma binade_comp (x y : Q) : x == y -> binade x = binade y.
Proof.
  intros E. unfold binade. rewrite (Qle_bool_comp 1 x y E).
  rewrite (Qfloor_comp x y E).
  assert (/ x == / y) as E' by (rewrite E; reflexivity).
  rewrite (Qceiling_comp _ _ E'). reflexivity.
Qed.

Lemma roundHalfEven_comp (x y : Q) : x == y -> roundHalfEven x = roundHalfEven y.
Proof.
  intros E. unfold roundHalfEven. rewrite (Qfloor_comp x y E).
  assert (x - inject_Z (Qfloor y) == y - inject_Z (Qfloor y)) as E' by (rewrite E; reflexivity).
  rewrite (Qcompare_comp _ _ E' (1 # 2) (1 # 2) (Qeq_refl _)). reflexivity.
Qed.

Lemma roundHalfEven_Z (z : Z) : roundHalfEven (inject_Z z) = z.
Proof.
  unfold roundHalfEven. rewrite Qfloor_Z.
  destruct (Qcompare_spec (inject_Z z - inject_Z z) (1 # 2)) as [H|H|H];
    [exfalso; lra|reflexivity|exfalso; lra].
Qed.

Lemma roundHalfEven_bounds (x : Q) :
  (Qfloor x <= roundHalfEven x <= Qfloor x + 1)%Z.
Proof.
  unfold roundHalfEven. destruct (_ ?= _); [destruct (Z.even _)|..]; lia.
Qed.

Lemma roundHalfEven_mono (x y : Q) : x <= y -> (roundHalfEven x <= roundHalfEven y)%Z.
Proof.
  intros Hxy. pose proof (Qfloor_resp_le x y Hxy) as Hf.
  pose proof (roundHalfEven_bounds x) as Bx. pose proof (roundHalfEven_bounds y) as By.
  destruct (Z.eq_dec (Qfloor x) (Qfloor y)) as [E|NE]; [|lia].
  unfold roundHalfEven in *. rewrite <- E in *.
  destruct (Qcompare_spec (x - inject_Z (Qfloor x)) (1 # 2)) as [Hx|Hx|Hx];
    destruct (Qcompare_spec (y - inject_Z (Qfloor x)) (1 # 2)) as [Hy|Hy|Hy];
    try lia; try (exfalso; lra); destruct (Z.even _); lia.
Qed.

Lemma scaled_bounds (q : Q) :
  0 < q ->
  inject_Z (2 ^ 52) <= q / 2 ^ (binade q - 52) /\
  q / 2 ^ (binade q - 52) <= inject_Z (2 ^ 53).
Proof.
  intros Hq. destruct (binade_spec q Hq) as [Hlo Hhi].
  pose proof (pow2_pos (binade q - 52)) as Hp.
  split.
  - apply Qle_shift_div_l; [exact Hp|].
    rewrite <- pow2_inject by lia. rewrite <- pow2_plus.
    replace (52 + (binade q - 52))%Z with (binade q) by lia. exact Hlo.
  - apply Qle_shift_div_r; [exact Hp|].
    rewrite <- pow2_inject by lia. rewrite <- pow2_plus.
    replace (53 + (binade q - 52))%Z with (binade q + 1)%Z by lia. lra.
Qed.

Lemma nearest_bounds (q : Q) :
  0 < q -> 2 ^ binade q <= nearest q /\ nearest q <= 2 ^ (binade q + 1).
Proof.
  intros Hq. destruct (scaled_bounds q Hq) as [Hlo Hhi].
  pose proof (pow2_pos (binade q - 52)) as Hp.
  apply roundHalfEven_mono in Hlo, Hhi. rewrite roundHalfEven_Z in Hlo, Hhi.
  unfold nearest. cbv zeta. split.
  - apply Qle_trans with (inject_Z (2 ^ 52) * 2 ^ (binade q - 52)).
    + rewrite <- pow2_inject by lia. rewrite <- pow2_plus.
      replace (52 + (binade q - 52))%Z with (binade q) by lia. apply Qle_refl.
    + apply Qmult_le_compat_r; [|lra]. now rewrite <- Zle_Qle.
  - apply Qle_trans with (inject_Z (2 ^ 53) * 2 ^ (binade q - 52)).
    + apply Qmult_le_compat_r; [|lra]. now rewrite <- Zle_Qle.
    + rewrite <- pow2_inject by lia. rewrite <- pow2_plus.
      replace (53 + (binade q - 52))%Z with (binade q + 1)%Z by lia. apply Qle_refl.
Qed.

Lemma nearest_pos (q : Q) : 0 < q -> 0 < nearest q.
Proof.
  intros Hq. destruct (nearest_bounds q Hq) as [H _].
  pose proof (pow2_pos (binade q)). lra.
Qed.

Lemma nearest_mono (x y : Q) : 0 < x -> x <= y -> nearest x <= nearest y.
Proof.
  intros Hx Hxy. assert (0 < y) as Hy by lra.
  pose proof (binade_mono x y Hx Hxy) as Hb.
  destruct (Z.eq_dec (binade x) (binade y)) as [E|NE].
  - unfold nearest. cbv zeta. rewrite <- E.
    pose proof (pow2_pos (binade x - 52)) as Hp.
    apply Qmult_le_compat_r; [|lra]. rewrite <- Zle_Qle.
    apply roundHalfEven_mono. unfold Qdiv. apply Qmult_le_compat_r; [exact Hxy|].
    apply Qinv_le_0_compat. lra.
  - destruct (nearest_bounds x Hx) as [_ Hux]. destruct (nearest_bounds y Hy) as [Hly _].
    pose proof (pow2_le (binade x + 1) (binade y) ltac:(lia)). lra.
Qed.

Lemma nearest_comp (x y : Q) : x == y -> nearest x = nearest y.
Proof.
  intros E. unfold nearest. cbv zeta. rewrite (binade_comp x y E).
  assert (x / 2 ^ (binade y - 52) == y / 2 ^ (binade y - 52)) as E' by (rewrite E; reflexivity).
  rewrite (roundHalfEven_comp _ _ E'). reflexivity.
Qed.

Lemma toDouble_comp (x y : Q) : x == y -> toDouble x = toDouble y.
Proof.
  intros E. unfold toDouble.
  rewrite (Qcompare_comp x y E 0 0 (Qeq_refl _)).
  rewrite (nearest_comp x y E).
  assert (- x == - y) as E' by (rewrite E; reflexivity).
  rewrite (nearest_comp _ _ E'). reflexivity.
Qed.

Lemma toDouble_0 : toDouble 0 = 0.
Proof. reflexivity. Qed.

Lemma toDouble_pos (q : Q) : 0 < q -> toDouble q = nearest q.
Proof.
  intros H. unfold toDouble.
  destruct (Qcompare_spec q 0) as [H'|H'|H']; [exfalso; lra|exfalso; lra|reflexivity].
Qed.

Lemma toDouble_nonneg (q : Q) : 0 <= q -> 0 <= toDouble q.
Proof.
  intros H. destruct (Qlt_le_dec 0 q) as [Hp|Hn].
  - rewrite toDouble_pos by exact Hp. apply Qlt_le_weak. now apply nearest_pos.
  - rewrite (toDouble_comp q 0) by lra. apply Qle_refl.
Qed.

Lemma toDouble_neg (q : Q) : q < 0 -> toDouble q = - nearest (- q).
Proof.
  intros H. unfold toDouble.
  destruct (Qcompare_spec q 0) as [H'|H'|H']; [exfalso; lra|reflexivity|exfalso; lra].
Qed.

(** Rounding to a double keeps the order. *)
Lemma toDouble_mono (x y : Q) : x <= y -> toDouble x <= toDouble y.
Proof.
  intros Hxy. destruct (Qlt_le_dec 0 x) as [Hp|Hn].
  - rewrite !toDouble_pos by lra. now apply nearest_mono.
  - destruct (Qlt_le_dec x 0) as [Hx|Hx].
    + rewrite (toDouble_neg x) by exact Hx.
      pose proof (nearest_pos (- x) ltac:(lra)) as Hnx.
      destruct (Qlt_le_dec y 0) as [Hy|Hy].
      * rewrite (toDouble_neg y) by exact Hy.
        pose proof (nearest_mono (- y) (- x) ltac:(lra) ltac:(lra)). lra.
      * pose proof (toDouble_nonneg y Hy). lra.
    + rewrite (toDouble_comp x 0) by lra. apply toDouble_nonneg. lra.
Qed.

(** The integers up to 2 ^ 53 are doubles. *)
Lemma toDouble_Z (z : Z) : (0 <= z <= 2 ^ 53)%Z -> toDouble (inject_Z z) == inject_Z z.
Proof.
  intros [H0 H53]. destruct (Z.eq_dec z 0%Z) as [->|Hz]; [reflexivity|].
  assert (0 < inject_Z z) as Hpos.
  { replace 0 with (inject_Z 0) by reflexivity. rewrite <- Zlt_Qlt. lia. }
  rewrite toDouble_pos by exact Hpos. unfold nearest. cbv zeta.
  assert (binade (inject_Z z) = Z.log2 z) as ->.
  { unfold binade. rewrite Qfloor_Z.
    assert (1 <= inject_Z z) as H1.
    { replace 1 with (inject_Z 1) by reflexivity. rewrite <- Zle_Qle. lia. }
    apply Qle_bool_iff in H1. rewrite H1. reflexivity. }
  pose proof (Z.log2_nonneg z) as Hnn.
  assert (Z.log2 z <= 53)%Z as Hb.
  { rewrite <- (Z.log2_pow2 53) by lia. now apply Z.log2_le_mono. }
  destruct (Z.eq_dec (Z.log2 z) 53%Z) as [E|NE].
  - assert (z = 2 ^ 53)%Z as ->.
    { destruct (Z.log2_spec z ltac:(lia)) as [Hlo _]. rewrite E in Hlo. lia. }
    vm_compute. reflexivity.
  - set (k := (52 - Z.log2 z)%Z). assert (0 <= k)%Z as Hk by lia.
    replace (Z.log2 z - 52)%Z with (- k)%Z by lia.
    assert (inject_Z z / 2 ^ (- k) == inject_Z (z * 2 ^ k)) as E.
    { rewrite Qpower_opp. rewrite inject_Z_mult, <- pow2_inject by exact Hk.
      field. apply Qpower_not_0. discriminate. }
    rewrite (roundHalfEven_comp _ _ E), roundHalfEven_Z.
    rewrite inject_Z_mult, <- pow2_inject by exact Hk.
    rewrite Qpower_opp. field. apply Qpower_not_0. discriminate.
Qed.

(** Two roundings that show: 30 * 1.1 is 33 in doubles, where the exact
    product of 30 and the double 1.1 lies above 33; and
    10 / 6.666666666666667 is 1.5, where the exact quotient lies below. *)
Example double_rounding :
  Math_ceil (Number_mul 30 Spec.double_1_1) = 33%Z /\
  Qceiling (30 * Spec.double_1_1) = 34%Z /\
  Math_round (Number_div 10 (toDouble (6666666666666667 # 1000000000000000))) = 2%Z /\
  Math_round (10 / toDouble (6666666666666667 # 1000000000000000)) = 1%Z.
Proof. repeat split. Qed.

End DoubleFacts.

(** ** Regular expressions: searching and testing *)

Module RegExpFacts.
Import JS CodeGenerator Spec.

Lemma startsWithPlus_true (s : string) :
  startsWithPlus s = true -> exists rest, s = String "+" rest.
Proof.
  destruct s as [|c rest]; simpl; [discriminate|].
  destruct (Ascii.eqb_spec c "+") as [->|Hc].
  - intros _. now exists rest.
  - destruct c as [[] [] [] [] [] [] [] []]; simpl; try discriminate.
    now contradict Hc.
Qed.

Lemma startsWithPlus_cons (rest : string) : startsWithPlus (String "+" rest) = true.
Proof. reflexivity. Qed.

Lemma occurs_cons (tok s : string) (c : ascii) :
  occurs tok s -> occurs tok (String c s).
Proof.
  intros (pre & post & ->). now exists (String c pre), post.
Qed.

(** A match of a two-character expression is an occurrence of its token. *)
Lemma search_more_occurs (src : Source) (s : string) (i : nat) :
  more src = true ->
  search src s i <> None -> occurs (String (lead src) "+") s.
Proof.
  intros Hmore. revert i.
  induction s as [|c s IH]; intros i; simpl; [congruence|].
  rewrite Hmore.
  destruct (Ascii.eqb_spec c (lead src)) as [->|Hc].
  - destruct (startsWithPlus s) eqn:Hplus.
    + intros _. apply startsWithPlus_true in Hplus as [rest ->].
      now exists "", rest.
    + intros H. apply occurs_cons. eapply IH, H.
  - intros H. apply occurs_cons. eapply IH, H.
Qed.

Lemma occurs_search_more (src : Source) (s : string) (i : nat) :
  more src = true ->
  occurs (String (lead src) "+") s -> search src s i <> None.
Proof.
  intros Hmore (pre & post & ->). revert i.
  induction pre as [|c pre IH]; intros i.
  - simpl. rewrite Hmore, Ascii.eqb_refl. simpl. congruence.
  - change (String c pre ++ String (lead src) "+" ++ post)
      with (String c (pre ++ String (lead src) "+" ++ post)).
    cbn [search]. destruct (matchHere src _); [congruence|]. apply IH.
Qed.

Lemma RegExp_test_fresh (r : RegExp) (s : string) :
  lastIndex r = 0 -> more (source r) = true ->
  fst (RegExp_test r s) = true <-> occurs (String (lead (source r)) "+") s.
Proof.
  intros Hi Hmore. unfold RegExp_test. rewrite Hi. simpl.
  destruct (search (source r) s 0) as [[i n]|] eqn:Hs; simpl.
  - split; [intros _|reflexivity].
    apply (search_more_occurs _ _ 0 Hmore). congruence.
  - split; [discriminate|]. intros H.
    now apply (occurs_search_more _ _ 0 Hmore) in H.
Qed.

Lemma RegExp_test_false_resets (r : RegExp) (s : string) :
  fst (RegExp_test r s) = false -> lastIndex (snd (RegExp_test r s)) = 0.
Proof.
  unfold RegExp_test. destruct (_ <? _); [reflexivity|].
  destruct (search _ _ _) as [[i n]|]; simpl; [discriminate|reflexivity].
Qed.

(** Without an occurrence of the token, [test] fails whatever [lastIndex]. *)
Lemma search_skipn_occurs (src : Source) (s : string) (k i : nat) :
  more src = true ->
  search src (skipn_string k s) i <> None -> occurs (String (lead src) "+") s.
Proof.
  intros Hmore. revert s i. induction k as [|k IH]; intros s i.
  - destruct s; apply search_more_occurs; assumption.
  - destruct s as [|c s]; simpl.
    + apply (search_more_occurs src "" i Hmore).
    + intros H. apply occurs_cons. eapply IH, H.
Qed.

Lemma RegExp_test_no_token (r : RegExp) (s : string) :
  more (source r) = true ->
  ~ occurs (String (lead (source r)) "+") s ->
  fst (RegExp_test r s) = false.
Proof.
  intros Hmore Hno. unfold RegExp_test. destruct (_ <? _); [reflexivity|].
  destruct (search _ _ _) as [[i n]|] eqn:Hs; [|reflexivity].
  exfalso. apply Hno. eapply search_skipn_occurs; [exact Hmore|].
  rewrite Hs. congruence.
Qed.

Lemma RegExp_eq (r r' : RegExp) :
  source r' = source r -> lastIndex r' = lastIndex r -> r' = r.
Proof. destruct r, r'. simpl. now intros -> ->. Qed.

(** [test] on a two-character expression used twice in a row: the second
    call starts behind the match of the first. *)
Lemma RegExp_test_is_stateful :
  let r := alphanumericMoreRegex defaultOptions in
  fst (RegExp_test r "*+") = true /\
  lastIndex (snd (RegExp_test r "*+")) = 2 /\
  fst (RegExp_test (snd (RegExp_test r "*+")) "*+") = false.
Proof. repeat split. Qed.

End RegExpFacts.

(** ** How the functions of the module treat the options object *)

Module OptionsFacts.
Import JS CodeGenerator Spec RegExpFacts.

Lemma sameSettings_refl (o : Options) : sameSettings o o.
Proof. repeat split. Qed.

Lemma sameSettings_trans (o1 o2 o3 : Options) :
  sameSettings o1 o2 -> sameSettings o2 o3 -> sameSettings o1 o3.
Proof.
  unfold sameSettings. intros H1 H2.
  destruct H1 as (?&?&?&?&?&?&?&?), H2 as (?&?&?&?&?&?&?&?).
  repeat split; congruence.
Qed.

Lemma sameSettings_standard (o o' : Options) :
  sameSettings o o' -> standardSyntax o -> standardSyntax o'.
Proof.
  unfold sameSettings, standardSyntax.
  intros (?&?&?&?&?&?&?&?) (?&?&?&?). repeat split; congruence.
Qed.

Lemma source_RegExp_test (r : RegExp) (s : string) :
  source (snd (RegExp_test r s)) = source r.
Proof.
  unfold RegExp_test. destruct (_ <? _); [reflexivity|].
  destruct (search _ _ _) as [[i n]|]; reflexivity.
Qed.

Lemma hasMorePlaceholder_fst (pattern : string) (o : Options) :
  fst (hasMorePlaceholder pattern o) =
  fst (RegExp_test (alphanumericMoreRegex o) pattern)
  || fst (RegExp_test (numericMoreRegex o) pattern).
Proof.
  unfold hasMorePlaceholder.
  destruct (RegExp_test (alphanumericMoreRegex o) pattern) as [[] r1]; simpl;
    [reflexivity|].
  destruct (RegExp_test (numericMoreRegex o) pattern) as [b r2]; reflexivity.
Qed.

Lemma hasMorePlaceholder_settings (pattern : string) (o : Options) :
  sameSettings o (snd (hasMorePlaceholder pattern o)).
Proof.
  unfold hasMorePlaceholder.
  pose proof (source_RegExp_test (alphanumericMoreRegex o) pattern) as Ha.
  pose proof (source_RegExp_test (numericMoreRegex o) pattern) as Hn.
  destruct (RegExp_test (alphanumericMoreRegex o) pattern) as [[] r1]; simpl in *.
  - repeat split. exact Ha.
  - destruct (RegExp_test (numericMoreRegex o) pattern) as [b r2]; simpl in *.
    repeat split; assumption.
Qed.

(** When [hasMorePlaceholder] answers no, both tests failed and both
    expressions are back at [lastIndex] 0. *)
Lemma hasMorePlaceholder_false_resets (pattern : string) (o : Options) :
  fst (hasMorePlaceholder pattern o) = false ->
  lastIndex (alphanumericMoreRegex (snd (hasMorePlaceholder pattern o))) = 0 /\
  lastIndex (numericMoreRegex (snd (hasMorePlaceholder pattern o))) = 0.
Proof.
  unfold hasMorePlaceholder.
  pose proof (RegExp_test_false_resets (alphanumericMoreRegex o) pattern) as Ha.
  pose proof (RegExp_test_false_resets (numericMoreRegex o) pattern) as Hn.
  destruct (RegExp_test (alphanumericMoreRegex o) pattern) as [[] r1]; simpl in *;
    [discriminate|].
  destruct (RegExp_test (numericMoreRegex o) pattern) as [b r2]; simpl in *.
  intros ->. split; auto.
Qed.

(** The answer from a fresh state, for the syntax of the module. *)
Lemma hasMorePlaceholder_fresh (pattern : string) (o : Options) :
  standardSyntax o ->
  lastIndex (alphanumericMoreRegex o) = 0 ->
  lastIndex (numericMoreRegex o) = 0 ->
  fst (hasMorePlaceholder pattern o) = true <-> hasVariableToken pattern.
Proof.
  intros (_ & _ & Ha & Hn) Hia Hin.
  rewrite hasMorePlaceholder_fst, orb_true_iff.
  rewrite (RegExp_test_fresh _ pattern Hia), (RegExp_test_fresh _ pattern Hin)
    by (rewrite ?Ha, ?Hn; reflexivity).
  rewrite Ha, Hn. reflexivity.
Qed.

Lemma hasMorePlaceholder_no_token (pattern : string) (o : Options) :
  standardSyntax o -> ~ hasVariableToken pattern ->
  fst (hasMorePlaceholder pattern o) = false.
Proof.
  intros (_ & _ & Ha & Hn) Hno.
  rewrite hasMorePlaceholder_fst, orb_false_iff. split.
  - apply RegExp_test_no_token; rewrite Ha; [reflexivity|].
    intros H. apply Hno. now left.
  - apply RegExp_test_no_token; rewrite Hn; [reflexivity|].
    intros H. apply Hno. now right.
Qed.

(** [countPermutations] does not read [lastIndex]. *)
Lemma countPermutations_fst (pattern : string) (r r' : RegExp) (alphabet : string) :
  source r' = source r ->
  fst (countPermutations pattern r' alphabet) = fst (countPermutations pattern r alphabet).
Proof.
  intros H. unfold countPermutations, String_match. rewrite H. reflexivity.
Qed.

Lemma countNonRepeatingPermutations_fst (pattern : string) (o o' : Options) :
  sameSettings o o' ->
  fst (countNonRepeatingPermutations pattern o')
  = fst (countNonRepeatingPermutations pattern o).
Proof.
  intros (Hac & Hnc & Ha & Hn & _).
  unfold countNonRepeatingPermutations, countPermutations, String_match. simpl.
  rewrite Hac, Hnc, Ha, Hn.
  destruct (_ && _); reflexivity.
Qed.

Lemma countNonRepeatingPermutations_settings (pattern : string) (o : Options) :
  sameSettings o (snd (countNonRepeatingPermutations pattern o)) /\
  alphanumericMoreRegex (snd (countNonRepeatingPermutations pattern o))
  = alphanumericMoreRegex o /\
  numericMoreRegex (snd (countNonRepeatingPermutations pattern o))
  = numericMoreRegex o.
Proof.
  unfold countNonRepeatingPermutations, countPermutations, String_match. simpl.
  destruct (_ && _); repeat split.
Qed.

Lemma checkRequestedCode_fst (pattern : string) (o : Options)
    (existingCountSparse howManySparse : Z) (howMany existingCount : nat) :
  fst (checkRequestedCode pattern o existingCountSparse howManySparse howMany existingCount)
  = let possible := fst (countNonRepeatingPermutations pattern o) in
    if (possible - existingCountSparse <? howManySparse)%Z
    then Some (Error_CannotGenerate howMany
                 (Math_round (Number_div (inject_Z possible) (sparsity o))) existingCount (sparsity o))
    else None.
Proof.
  unfold checkRequestedCode.
  pose proof (countNonRepeatingPermutations_settings pattern o) as (Hs & _).
  destruct (countNonRepeatingPermutations pattern o) as [possible o1]. simpl in *.
  destruct Hs as (_&_&_&_&_&_&Hsp&_). rewrite Hsp.
  destruct (_ <? _)%Z; reflexivity.
Qed.

Lemma checkRequestedCode_settings (pattern : string) (o : Options)
    (existingCountSparse howManySparse : Z) (howMany existingCount : nat) :
  let o' := snd (checkRequestedCode pattern o existingCountSparse howManySparse
                   howMany existingCount) in
  sameSettings o o' /\
  alphanumericMoreRegex o' = alphanumericMoreRegex o /\
  numericMoreRegex o' = numericMoreRegex o.
Proof.
  unfold checkRequestedCode.
  pose proof (countNonRepeatingPermutations_settings pattern o) as H.
  destruct (countNonRepeatingPermutations pattern o) as [possible o1]. simpl in *.
  destruct (_ <? _)%Z; exact H.
Qed.

Lemma calculateRepetitions_settings (pattern : string) (howMany existing : Z)
    (o : Options) :
  let o' := snd (calculateRepetitions pattern howMany existing o) in
  sameSettings o o' /\
  lastIndex (alphanumericMoreRegex o') = 0 /\
  lastIndex (numericMoreRegex o') = 0.
Proof.
  unfold calculateRepetitions.
  pose proof (countNonRepeatingPermutations_settings pattern o) as (Hs & Ha & Hn).
  destruct (countNonRepeatingPermutations pattern o) as [possible o1].
  unfold String_match. simpl in *.
  destruct Hs as (?&?&?&?&?&?&?&?).
  repeat split; assumption.
Qed.

Lemma clampSparsity_settings (o : Options) :
  alphanumericChars (clampSparsity o) = alphanumericChars o /\
  numericChars (clampSparsity o) = numericChars o /\
  alphanumericRegex (clampSparsity o) = alphanumericRegex o /\
  numericRegex (clampSparsity o) = numericRegex o /\
  alphanumericMoreRegex (clampSparsity o) = alphanumericMoreRegex o /\
  numericMoreRegex (clampSparsity o) = numericMoreRegex o /\
  existingCodesLoader (clampSparsity o) = existingCodesLoader o.
Proof. unfold clampSparsity. destruct (Qle_bool _ _); repeat split. Qed.

Lemma clampSparsity_ge_1 (o : Options) : (1 <= sparsity (clampSparsity o))%Q.
Proof.
  unfold clampSparsity. destruct (Qle_bool 1 (sparsity o)) eqn:H.
  - now apply Qle_bool_iff.
  - simpl. apply Qle_refl.
Qed.

(** How a call of [generateCodes] ends, in terms of its three stages. *)
Lemma generateCodes_fst (pattern : string) (howMany : option nat)
    (options : UserOptions) (defaults : Options) (rnd : nat -> Z) (fuel : nat) :
  fst (generateCodes pattern howMany options defaults rnd fuel) =
  let o := effective defaults options in
  let o1 := snd (hasMorePlaceholder pattern o) in
  let existingCodes := loadExistingCodes pattern o in
  let check := checkRequestedCode pattern o1 (sparse (size existingCodes) o)
                 (sparse (orOne howMany) o) (orOne howMany) (size existingCodes) in
  if fst (hasMorePlaceholder pattern o) then Threw TypeError_AssignmentToConstant
  else match fst check with
       | Some e => Threw e
       | None =>
           generate fuel pattern (orOne howMany) (snd check)
             (combineRegexps [alphanumericMoreRegex (snd check);
                              numericMoreRegex (snd check);
                              alphanumericRegex (snd check);
                              numericRegex (snd check)])
             [] rnd existingCodes [] 0
       end.
Proof.
  unfold generateCodes, effective. simpl.
  destruct (hasMorePlaceholder pattern _) as [[] o1]; simpl.
  - destruct (calculateRepetitions _ _ _ _); reflexivity.
  - destruct (checkRequestedCode _ _ _ _ _ _) as [[e|] o2]; reflexivity.
Qed.

(** Every call leaves the two variable-length expressions of its options
    object at [lastIndex] 0, and changes nothing else but [lastIndex]. *)
Lemma generateCodes_snd (pattern : string) (howMany : option nat)
    (options : UserOptions) (defaults : Options) (rnd : nat -> Z) (fuel : nat) :
  let after := snd (generateCodes pattern howMany options defaults rnd fuel) in
  sameSettings (effective defaults options) after /\
  lastIndex (alphanumericMoreRegex after) = 0 /\
  lastIndex (numericMoreRegex after) = 0.
Proof.
  unfold generateCodes. fold (effective defaults options).
  set (o := effective defaults options). simpl.
  pose proof (hasMorePlaceholder_settings pattern o) as Hs.
  pose proof (hasMorePlaceholder_false_resets pattern o) as Hr.
  destruct (hasMorePlaceholder pattern o) as [[] o1]; simpl in *.
  - match goal with |- context [calculateRepetitions ?p ?h ?e ?x] =>
      pose proof (calculateRepetitions_settings p h e x) as Hc;
      destruct (calculateRepetitions p h e x) as [reps o2] end.
    simpl in *. destruct Hc as (Hc & ? & ?).
    split; [eapply sameSettings_trans; eassumption|]. split; assumption.
  - destruct (Hr eq_refl) as [Ha Hn].
    match goal with |- context [checkRequestedCode ?p ?x ?a ?b ?c ?d] =>
      pose proof (checkRequestedCode_settings p x a b c d) as Hc;
      destruct (checkRequestedCode p x a b c d) as [[e|] o2] end;
    simpl in *; destruct Hc as (Hc & Ha' & Hn');
    (split; [eapply sameSettings_trans; eassumption|]);
    rewrite Ha', Hn'; split; assumption.
Qed.

End OptionsFacts.

(** ** Strings and [randomChars] *)

Module EmitterFacts.
Import JS CodeGenerator Spec RegExpFacts OptionsFacts.

Lemma append_cons (c : ascii) (s t : string) : String c s ++ t = String c (s ++ t).
Proof. reflexivity. Qed.

Lemma append_empty_l (s : string) : "" ++ s = s.
Proof. reflexivity. Qed.

Lemma chars_app (s t : string) : chars (s ++ t) = (chars s ++ chars t)%list.
Proof.
  induction s as [|c s IH]; [reflexivity|].
  rewrite append_cons. unfold chars in *. simpl. now rewrite IH.
Qed.

Lemma length_append (s t : string) :
  String.length (s ++ t) = String.length s + String.length t.
Proof.
  induction s as [|c s IH]; [reflexivity|].
  rewrite append_cons. simpl. now rewrite IH.
Qed.

Lemma append_assoc (s t u : string) : (s ++ t) ++ u = s ++ t ++ u.
Proof.
  induction s as [|c s IH]; [reflexivity|].
  rewrite !append_cons. now rewrite IH.
Qed.

Lemma append_empty_r (s : string) : s ++ "" = s.
Proof.
  induction s as [|c s IH]; [reflexivity|].
  rewrite append_cons. now rewrite IH.
Qed.

Lemma drawnFrom_empty (alphabet : string) : drawnFrom alphabet "".
Proof. constructor. Qed.

Lemma drawnFrom_app (alphabet s t : string) :
  drawnFrom alphabet s -> drawnFrom alphabet t -> drawnFrom alphabet (s ++ t).
Proof. unfold drawnFrom. rewrite chars_app. apply Forall_app_2. Qed.

Lemma get_In (s : string) (i : nat) (c : ascii) :
  String.get i s = Some c -> In c (chars s).
Proof.
  revert i. induction s as [|d s IH]; intros i; simpl; [discriminate|].
  destruct i as [|i].
  - intros [= ->]. now left.
  - intros H. right. eapply IH, H.
Qed.

Lemma get_Some (s : string) (i : nat) :
  i < String.length s -> exists c, String.get i s = Some c.
Proof.
  revert i. induction s as [|d s IH]; intros i; simpl; [lia|].
  destruct i as [|i]; [eauto|]. intros H. apply IH. lia.
Qed.

Lemma charAt_drawnFrom (s : string) (i : nat) : drawnFrom s (charAt s i).
Proof.
  unfold charAt. destruct (String.get i s) as [c|] eqn:H.
  - constructor; [|constructor]. eapply get_In, H.
  - constructor.
Qed.

Lemma charAt_length (s : string) (i : nat) :
  i < String.length s -> String.length (charAt s i) = 1.
Proof.
  intros H. unfold charAt. destruct (get_Some s i H) as [c ->]. reflexivity.
Qed.

Lemma charAt_empty (i : nat) : charAt "" i = "".
Proof. unfold charAt. destruct i; reflexivity. Qed.

(** [Math.floor(Math.random() * n)] is an index below [n]. *)
Lemma random_index (rnd : nat -> Z) (k n : nat) :
  0 < n ->
  Z.to_nat (Qfloor (Math_random rnd k * inject_Z (Z.of_nat n))) < n.
Proof.
  intros Hn. unfold Math_random, Qmult, Qfloor, inject_Z. simpl.
  pose proof (Z.mod_pos_bound (rnd k) (Z.pos two53) eq_refl) as [H0 H1].
  set (m := (rnd k mod Z.pos two53)%Z) in *.
  rewrite Pos.mul_1_r.
  assert (0 <= m * Z.of_nat n / Z.pos two53 < Z.of_nat n)%Z as [Hlo Hhi].
  { split.
    - apply Z.div_pos; [|reflexivity]. apply Z.mul_nonneg_nonneg; lia.
    - apply Z.div_lt_upper_bound; [reflexivity|].
      apply Zmult_lt_compat_r; lia. }
  lia.
Qed.

(** [randomChars] appends to [text] one character of the alphabet for each
    draw, or nothing at all when the alphabet is empty. *)
Lemma randomChars_from_spec (alphabet : string) (n : nat) (text : string)
    (rnd : nat -> Z) (k : nat) :
  exists drawn,
    randomChars_from alphabet n text rnd k = (text ++ drawn, k + n) /\
    drawnFrom alphabet drawn /\
    String.length drawn = (if String.eqb alphabet "" then 0 else n).
Proof.
  revert text k. induction n as [|n IH]; intros text k.
  - exists "". simpl. rewrite append_empty_r, Nat.add_0_r.
    repeat split; [constructor|]. now destruct (String.eqb alphabet "").
  - cbn [randomChars_from].
    set (i := Z.to_nat _).
    destruct (IH (text ++ charAt alphabet i) (S k)) as (drawn & -> & Hd & Hl).
    exists (charAt alphabet i ++ drawn).
    rewrite append_assoc. replace (S k + n) with (k + S n) by lia.
    split; [reflexivity|]. split.
    + apply drawnFrom_app; [apply charAt_drawnFrom|assumption].
    + rewrite length_append, Hl.
      destruct (String.eqb_spec alphabet "") as [->|Hne].
      * now rewrite charAt_empty.
      * rewrite charAt_length; [reflexivity|].
        apply random_index. destruct alphabet; [congruence|simpl; lia].
Qed.

Lemma randomChars_spec (alphabet : string) (n : nat) (rnd : nat -> Z) (k : nat) :
  drawnFrom alphabet (fst (randomChars alphabet n rnd k)) /\
  String.length (fst (randomChars alphabet n rnd k))
  = (if String.eqb alphabet "" then 0 else n).
Proof.
  unfold randomChars.
  destruct (randomChars_from_spec alphabet n "" rnd k) as (drawn & -> & Hd & Hl).
  simpl. split; assumption.
Qed.

Lemma randomChars_one (alphabet : string) (rnd : nat -> Z) (k : nat) :
  oneFrom alphabet (fst (randomChars alphabet 1 rnd k)).
Proof.
  destruct (randomChars_spec alphabet 1 rnd k) as [Hd Hl]. split; [assumption|].
  rewrite Hl. destruct alphabet; reflexivity.
Qed.

End EmitterFacts.

(** ** One pass of [pattern.replace] and the retry loop *)

Module LoopFacts.
Import JS CodeGenerator Spec RegExpFacts OptionsFacts EmitterFacts.

Lemma firstAlternative_standard (c : ascii) (rest : string) :
  firstAlternative standardAlternatives (String c rest) 0 =
  if Ascii.eqb c "*" then (if startsWithPlus rest then Some (0, 2) else Some (2, 1))
  else if Ascii.eqb c "#" then (if startsWithPlus rest then Some (1, 2) else Some (3, 1))
  else None.
Proof.
  unfold standardAlternatives, firstAlternative, matchHere. cbn [lead more].
  destruct (Ascii.eqb c "*"), (Ascii.eqb c "#"), (startsWithPlus rest); reflexivity.
Qed.

Lemma combineRegexps_standard (o : Options) :
  standardSyntax o ->
  combineRegexps [alphanumericMoreRegex o; numericMoreRegex o;
                  alphanumericRegex o; numericRegex o] = standardAlternatives.
Proof.
  intros (Ha & Hn & Ham & Hnm). unfold combineRegexps. simpl.
  now rewrite Ha, Hn, Ham, Hnm.
Qed.

Lemma substitute_variable (o : Options) (rnd : nat -> Z) (g : nat)
    (st st' : list number * nat) (text : string) :
  g < 2 -> substitute o rnd g st = Some (text, st') ->
  drawnFrom (if g =? 0 then alphanumericChars o else numericChars o) text.
Proof.
  intros Hg. destruct st as [rep k]. unfold substitute.
  destruct g as [|[|g]]; [| |lia]; cbv beta iota zeta;
    destruct (shift rep) as [count rep']; destruct (iterations count) as [n|];
    try discriminate;
    match goal with |- context [randomChars ?a ?n ?r ?k] =>
      pose proof (randomChars_spec a n r k) as [Hd _];
      destruct (randomChars a n r k) end;
    intros [= <- <-]; exact Hd.
Qed.

Lemma substitute_fixed (o : Options) (rnd : nat -> Z) (g : nat)
    (st st' : list number * nat) (text : string) :
  2 <= g -> substitute o rnd g st = Some (text, st') ->
  oneFrom (if g =? 2 then alphanumericChars o else numericChars o) text.
Proof.
  intros Hg. destruct st as [rep k]. unfold substitute.
  destruct g as [|[|[|g]]]; [lia|lia| |]; cbv beta iota zeta;
    match goal with |- context [randomChars ?a ?n ?r ?k] =>
      pose proof (randomChars_one a r k) as Hd;
      destruct (randomChars a n r k) end;
    intros [= <- <-]; exact Hd.
Qed.

(** One pass of [pattern.replace] gives a code of the shape of the pattern. *)
Lemma String_replace_conforms (o : Options) (rnd : nat -> Z) (n : nat) :
  forall (pattern code : string) (st st' : list number * nat),
    String.length pattern <= n ->
    String_replace standardAlternatives (substitute o rnd) pattern 0 st = Some (code, st') ->
    conforms (alphanumericChars o) (numericChars o) pattern code.
Proof.
  induction n as [|n IH]; intros pattern code st st' Hlen.
  - destruct pattern; [|simpl in Hlen; lia]. intros [= <- <-]. constructor.
  - destruct pattern as [|c rest]; [intros [= <- <-]; constructor|].
    simpl in Hlen. cbn [String_replace]. rewrite firstAlternative_standard.
    destruct (Ascii.eqb_spec c "*") as [->|Hstar];
      [|destruct (Ascii.eqb_spec c "#") as [->|Hhash]].
    + destruct (startsWithPlus rest) eqn:Hplus.
      * apply startsWithPlus_true in Hplus as [rest' ->].
        destruct (substitute o rnd 0 st) as [[text st1]|] eqn:Hs; [|discriminate].
        cbn [String_replace Nat.sub].
        destruct (String_replace _ _ rest' 0 st1) as [[out st2]|] eqn:Hr; [|discriminate].
        intros [= <- <-]. apply conforms_alphanumericMore.
        -- apply (substitute_variable o rnd 0 st st1); [lia|exact Hs].
        -- eapply IH, Hr. simpl in Hlen. lia.
      * destruct (substitute o rnd 2 st) as [[text st1]|] eqn:Hs; [|discriminate].
        cbn [Nat.sub].
        destruct (String_replace _ _ rest 0 st1) as [[out st2]|] eqn:Hr; [|discriminate].
        intros [= <- <-]. apply conforms_alphanumeric; [exact Hplus| |].
        -- apply (substitute_fixed o rnd 2 st st1); [lia|exact Hs].
        -- eapply IH, Hr. lia.
    + destruct (startsWithPlus rest) eqn:Hplus.
      * apply startsWithPlus_true in Hplus as [rest' ->].
        destruct (substitute o rnd 1 st) as [[text st1]|] eqn:Hs; [|discriminate].
        cbn [String_replace Nat.sub].
        destruct (String_replace _ _ rest' 0 st1) as [[out st2]|] eqn:Hr; [|discriminate].
        intros [= <- <-]. apply conforms_numericMore.
        -- apply (substitute_variable o rnd 1 st st1); [lia|exact Hs].
        -- eapply IH, Hr. simpl in Hlen. lia.
      * destruct (substitute o rnd 3 st) as [[text st1]|] eqn:Hs; [|discriminate].
        cbn [Nat.sub].
        destruct (String_replace _ _ rest 0 st1) as [[out st2]|] eqn:Hr; [|discriminate].
        intros [= <- <-]. apply conforms_numeric; [exact Hplus| |].
        -- apply (substitute_fixed o rnd 3 st st1); [lia|exact Hs].
        -- eapply IH, Hr. lia.
    + destruct (String_replace _ _ rest 0 st) as [[out st1]|] eqn:Hr; [|discriminate].
      intros [= <- <-]. apply conforms_literal; [assumption..|].
      eapply IH, Hr. lia.
Qed.

Lemma hasOwnProperty_Some (existingCodes : gset string) (code : string) (b : bool) :
  hasOwnProperty existingCodes code = Some b -> (b = true <-> code ∈ existingCodes).
Proof.
  unfold hasOwnProperty. destruct (bool_decide (_ ∈ _)); [discriminate|].
  intros [= <-]. rewrite bool_decide_eq_true. reflexivity.
Qed.

(** What the retry loop returns: [howMany] codes without repetition, made of
    the codes it started with followed by codes that come out of
    [pattern.replace] and were not keys of [existingCodes]. *)
Lemma generate_spec (pattern : string) (howMany : nat) (o : Options)
    (alts : list Source) (reps : list number) (rnd : nat -> Z) (fuel : nat) :
  forall (existingCodes : gset string) (generated : list string) (k : nat)
         (codes : list string),
    generate fuel pattern howMany o alts reps rnd existingCodes generated k
    = Returned codes ->
    List.length generated <= howMany ->
    NoDup generated ->
    (forall c, c ∈ generated -> c ∈ existingCodes) ->
    List.length codes = howMany /\
    NoDup codes /\
    exists fresh,
      codes = (generated ++ fresh)%list /\
      Forall (fun c =>
                (c ∉ existingCodes) /\
                exists st st', String_replace alts (substitute o rnd) pattern 0 st
                               = Some (c, st')) fresh.
Proof.
  induction fuel as [|fuel IH]; intros existingCodes generated k codes;
    cbn [generate]; destruct (Nat.ltb_spec (List.length generated) howMany) as [Hlt|Hge];
    try discriminate.
  - intros [= <-] Hlen Hnd Hsub. split; [lia|]. split; [assumption|].
    exists []. rewrite app_nil_r. split; [reflexivity|constructor].
  - destruct (String_replace alts _ pattern 0 (reps, k)) as [[code [rep' k']]|] eqn:Hr;
      [|discriminate].
    destruct (hasOwnProperty existingCodes code) as [[]|] eqn:Hown; [| |discriminate].
    + intros H Hlen Hnd Hsub. eapply IH; eassumption.
    + intros H Hlen Hnd Hsub.
      assert (code ∉ existingCodes) as Hnew.
      { intros Hin. apply (hasOwnProperty_Some _ _ _ Hown) in Hin. discriminate. }
      apply IH in H as (Hl & Hn & fresh & -> & Hf).
      * split; [assumption|]. split; [assumption|].
        exists (code :: fresh). rewrite <- app_assoc. split; [reflexivity|].
        constructor; [split; [assumption|eauto]|].
        eapply Forall_impl; [exact Hf|]. intros c [Hc He]. split; [|assumption].
        intros Hin. apply Hc, elem_of_union. now right.
      * rewrite length_app. simpl. lia.
      * apply NoDup_app. split; [assumption|]. split; [|apply NoDup_singleton].
        intros c Hc ->%list_elem_of_singleton. apply Hnew, Hsub, Hc.
      * intros c [Hc| ->%list_elem_of_singleton]%elem_of_app; apply elem_of_union.
        -- right. apply Hsub, Hc.
        -- left. now apply elem_of_singleton.
  - intros [= <-] Hlen Hnd Hsub. split; [lia|]. split; [assumption|].
    exists []. rewrite app_nil_r. split; [reflexivity|constructor].
Qed.

Lemma generate_throws (pattern : string) (howMany : nat) (o : Options)
    (alts : list Source) (reps : list number) (rnd : nat -> Z) (fuel : nat) :
  forall (existingCodes : gset string) (generated : list string) (k : nat) (e : error),
    generate fuel pattern howMany o alts reps rnd existingCodes generated k = Threw e ->
    e = TypeError_NotAFunction.
Proof.
  induction fuel as [|fuel IH]; intros existingCodes generated k e;
    cbn [generate]; destruct (List.length generated <? howMany); try discriminate.
  destruct (String_replace alts _ pattern 0 (reps, k)) as [[code [rep' k']]|];
    [|discriminate].
  destruct (hasOwnProperty existingCodes code) as [[]|]; [apply IH|apply IH|].
  now intros [= <-].
Qed.

Lemma convertToObject_elem (ary : list string) (c : string) :
  c ∈ convertToObject ary <-> c ∈ ary.
Proof.
  unfold convertToObject.
  assert (forall (acc : gset string),
             c ∈ fold_left (fun obj el => {[ el ]} ∪ obj) ary acc <-> c ∈ ary \/ c ∈ acc) as H.
  { induction ary as [|x ary IH]; intros acc; simpl.
    - split; [now right|]. intros [H|H]; [inversion H|exact H].
    - rewrite IH, elem_of_union, elem_of_singleton, elem_of_cons. tauto. }
  rewrite H. split; [|now left].
  intros [Hc|Hc]; [exact Hc|]. now apply not_elem_of_empty in Hc.
Qed.

Lemma convertToObject_list_to_set (ary : list string) :
  convertToObject ary = list_to_set ary.
Proof.
  apply set_eq. intros c. rewrite convertToObject_elem, elem_of_list_to_set. reflexivity.
Qed.

Lemma size_convertToObject (ary : list string) :
  NoDup ary -> size (convertToObject ary) = List.length ary.
Proof.
  intros H. rewrite convertToObject_list_to_set. now apply size_list_to_set.
Qed.

End LoopFacts.

(** ** Logarithms, scaling and rounding *)

Module NumberFacts.
Import JS CodeGenerator Spec DoubleFacts RegExpFacts OptionsFacts EmitterFacts LoopFacts.

#[local] Open Scope Z_scope.

(** With enough fuel the search ends at the least exponent that reaches
    [n]. *)
Lemma ceilLogFrom_spec (b n : Z) (fuel : nat) :
  2 <= b ->
  forall acc, 1 <= acc -> n <= acc * b ^ Z.of_nat fuel ->
    let e := ceilLogFrom (S fuel) b n acc in
    0 <= e /\ n <= acc * b ^ e /\ (0 < e -> acc * b ^ (e - 1) < n).
Proof.
  intros Hb. induction fuel as [|fuel IH]; intros acc Hacc Hn.
  - cbn. change (b ^ Z.of_nat 0) with 1 in Hn. rewrite Z.mul_1_r in Hn.
    destruct (Z.leb_spec n acc); [|lia]. cbn. rewrite Z.mul_1_r. lia.
  - cbv zeta.
    change (ceilLogFrom (S (S fuel)) b n acc)
      with (if n <=? acc then 0 else 1 + ceilLogFrom (S fuel) b n (acc * b)).
    destruct (Z.leb_spec n acc) as [Hle|Hgt].
    + cbn. rewrite Z.mul_1_r. lia.
    + specialize (IH (acc * b) ltac:(nia)).
      rewrite Nat2Z.inj_succ, Z.pow_succ_r in Hn by lia.
      specialize (IH ltac:(lia)). cbv zeta in IH.
      set (e' := ceilLogFrom (S fuel) b n (acc * b)) in *.
      destruct IH as (He & Hup & Hlow).
      replace (1 + e') with (Z.succ e') by lia.
      replace (Z.succ e' - 1) with e' by lia.
      rewrite Z.pow_succ_r by lia.
      split; [lia|]. split; [lia|]. intros _.
      destruct (Z.eq_dec e' 0) as [E|Hne].
      * rewrite E, Z.pow_0_r. lia.
      * specialize (Hlow ltac:(lia)).
        replace e' with (Z.succ (e' - 1)) by lia.
        rewrite Z.pow_succ_r by lia. lia.
Qed.

Lemma ceilLogRatio_finite (n b : Z) :
  1 <= n -> 2 <= b ->
  exists e, ceilLogRatio n b = Finite e /\
            0 <= e /\ n <= b ^ e /\ (0 < e -> b ^ (e - 1) < n).
Proof.
  intros Hn Hb. unfold ceilLogRatio.
  destruct (Z.ltb_spec n 0); [lia|].
  destruct (Z.eqb_spec n 0); [lia|].
  destruct (Z.eqb_spec b 0); [lia|].
  destruct (Z.eqb_spec b 1); [lia|].
  eexists. split; [reflexivity|].
  pose proof (ceilLogFrom_spec b n (Z.to_nat (Z.log2_up n)) Hb 1 ltac:(lia)) as Hspec.
  cbv zeta in Hspec. rewrite !Z.mul_1_l in Hspec.
  assert (n <= b ^ Z.of_nat (Z.to_nat (Z.log2_up n))) as Hfuel.
  { rewrite Z2Nat.id by apply Z.log2_up_nonneg.
    transitivity (2 ^ Z.log2_up n).
    - destruct (Z.eq_dec n 1) as [->|]; [cbn; lia|].
      apply Z.log2_up_spec. lia.
    - apply Z.pow_le_mono_l. lia. }
  destruct (Hspec Hfuel) as (He & Hup & Hlow).
  split; [assumption|]. split; assumption.
Qed.

(** On an alphabet of two characters or more, the length is 0 exactly for a
    target of one permutation. *)
Lemma neededChars_finite (howMany : Z) (allowedChars : string) :
  1 <= howMany -> (2 <= String.length allowedChars)%nat ->
  exists e, neededChars howMany allowedChars = Finite e /\
            0 <= e /\ (e = 0 <-> howMany = 1) /\
            howMany <= Z.of_nat (String.length allowedChars) ^ e /\
            (0 < e -> Z.of_nat (String.length allowedChars) ^ (e - 1) < howMany).
Proof.
  intros Hn Hb. unfold neededChars.
  destruct (ceilLogRatio_finite howMany (Z.of_nat (String.length allowedChars)))
    as (e & -> & He & Hup & Hlow); [lia..|].
  exists e. split; [reflexivity|]. split; [assumption|].
  split; [|split; assumption]. split.
  - intros ->. rewrite Z.pow_0_r in Hup. lia.
  - intros ->. destruct (Z.eq_dec e 0) as [|Hne]; [assumption|].
    specialize (Hlow ltac:(lia)).
    assert (0 < Z.of_nat (String.length allowedChars) ^ (e - 1)); [|lia].
    apply Z.pow_pos_nonneg; lia.
Qed.

(** A larger target never gets a smaller length, on any alphabet. *)
Lemma neededChars_mono (n m : Z) (allowedChars : string) :
  1 <= n -> n <= m ->
  number_ltb (neededChars m allowedChars) (neededChars n allowedChars) = false.
Proof.
  intros Hn Hnm. unfold neededChars.
  set (b := Z.of_nat (String.length allowedChars)).
  assert (0 <= b) as Hb0 by lia.
  destruct (Z.le_gt_cases 2 b) as [Hb|Hb].
  - destruct (ceilLogRatio_finite n b) as (e1 & -> & He1 & Hup1 & Hlow1); [lia..|].
    destruct (ceilLogRatio_finite m b) as (e2 & -> & He2 & Hup2 & Hlow2); [lia..|].
    simpl. apply Z.ltb_ge.
    destruct (Z.le_gt_cases e1 e2) as [|Hlt]; [assumption|exfalso].
    specialize (Hlow1 ltac:(lia)).
    assert (b ^ e2 <= b ^ (e1 - 1)) by (apply Z.pow_le_mono_r; lia).
    lia.
  - unfold ceilLogRatio.
    destruct (Z.ltb_spec n 0); [lia|]. destruct (Z.ltb_spec m 0); [lia|].
    destruct (Z.eqb_spec n 0); [lia|]. destruct (Z.eqb_spec m 0); [lia|].
    destruct (Z.eqb_spec b 0); [reflexivity|].
    destruct (Z.eqb_spec b 1); [|lia].
    destruct (Z.eqb_spec n 1), (Z.eqb_spec m 1); reflexivity.
Qed.

Lemma neededChars_mono_finite (n m : Z) (allowedChars : string) :
  1 <= n -> n <= m -> (2 <= String.length allowedChars)%nat ->
  exists e1 e2, neededChars n allowedChars = Finite e1 /\
                neededChars m allowedChars = Finite e2 /\ e1 <= e2.
Proof.
  intros Hn Hnm Hb.
  pose proof (neededChars_mono n m allowedChars Hn Hnm) as H.
  destruct (neededChars_finite n allowedChars) as (e1 & E1 & _); [lia..|].
  destruct (neededChars_finite m allowedChars) as (e2 & E2 & _); [lia..|].
  exists e1, e2. rewrite E1, E2 in *. simpl in H. apply Z.ltb_ge in H. auto.
Qed.

Lemma deficit_ge_1 (howMany nonRepeating existing : Z) :
  1 <= deficit howMany nonRepeating existing.
Proof. unfold deficit. lia. Qed.

Lemma deficit_mono (h1 h2 nonRepeating existing : Z) :
  h1 <= h2 -> deficit h1 nonRepeating existing <= deficit h2 nonRepeating existing.
Proof. unfold deficit. lia. Qed.

Lemma ceilDiv_ge_1 (a b : Z) : 1 <= a -> 1 <= b -> 1 <= ceilDiv a b.
Proof.
  intros Ha Hb. unfold ceilDiv. apply Z.div_le_lower_bound; lia.
Qed.

Lemma ceilDiv_1 (a : Z) : ceilDiv a 1 = a.
Proof. unfold ceilDiv. rewrite Z.div_1_r. lia. Qed.

Lemma sparse_mono (n m : nat) (o : Options) :
  (0 <= sparsity o)%Q -> (n <= m)%nat -> sparse n o <= sparse m o.
Proof.
  intros Hs Hnm. unfold sparse, Math_ceil, Number_mul.
  apply Qceiling_resp_le, toDouble_mono.
  apply Qmult_le_compat_r; [|assumption].
  rewrite <- Zle_Qle. lia.
Qed.

Lemma effective_sparsity_nonneg (defaults : Options) (options : UserOptions) :
  (0 <= sparsity (effective defaults options))%Q.
Proof.
  unfold effective. eapply Qle_trans; [|apply clampSparsity_ge_1]. discriminate.
Qed.

Lemma orOne_mono (n m : nat) :
  (n <= m)%nat -> (orOne (Some n) <= orOne (Some m))%nat.
Proof. destruct n, m; simpl; lia. Qed.

End NumberFacts.

(** ** [calculateRepetitions] *)

Module PlannerFacts.
Import JS CodeGenerator Spec RegExpFacts OptionsFacts EmitterFacts LoopFacts NumberFacts.

(** The walk of [calculateRepetitions] only ever pushes one of two values. *)
Lemma String_replace_push (alts : list Source) (v0 v1 : number) (s : string) :
  forall (skip : nat) (st st' : list number) (out : string),
    String_replace alts
      (fun group repetitions =>
         match group with
         | 0 => Some ("undefined", (repetitions ++ [v0])%list)
         | _ => Some ("undefined", (repetitions ++ [v1])%list)
         end) s skip st = Some (out, st') ->
    exists pushed, st' = (st ++ pushed)%list /\ Forall (fun x => x = v0 \/ x = v1) pushed.
Proof.
  induction s as [|c s IH]; intros skip st st' out.
  - intros [= <- <-]. exists []. now rewrite app_nil_r.
  - cbn [String_replace]. destruct skip as [|skip]; [|apply IH].
    destruct (firstAlternative alts (String c s) 0) as [[g n]|].
    + destruct g as [|g]; cbv beta iota;
        match goal with |- context [String_replace _ ?f s (n - 1) ?x] =>
          destruct (String_replace alts f s (n - 1) x) as [[out1 st1]|] eqn:Hr end;
        try discriminate; intros [= <- <-];
        apply IH in Hr as (pushed & -> & Hp);
        eexists (_ :: pushed); rewrite <- app_assoc; (split; [reflexivity|]);
        constructor; auto.
    + match goal with |- context [String_replace _ ?f s 0 ?x] =>
        destruct (String_replace alts f s 0 x) as [[out1 st1]|] eqn:Hr end;
        [|discriminate].
      intros [= <- <-]. eapply IH, Hr.
Qed.

Lemma calculateRepetitions_fst (pattern : string) (howMany existing : Z) (o : Options) :
  exists pushed,
    fst (calculateRepetitions pattern howMany existing o) = pushed /\
    Forall (fun x =>
              x = neededChars (perTokenTarget pattern howMany existing o)
                    (alphanumericChars o) \/
              x = neededChars (perTokenTarget pattern howMany existing o)
                    (numericChars o)) pushed.
Proof.
  unfold calculateRepetitions, perTokenTarget.
  pose proof (countNonRepeatingPermutations_settings pattern o) as (Hs & Ha & Hn).
  destruct (countNonRepeatingPermutations pattern o) as [possible o1].
  unfold String_match. simpl in *.
  destruct Hs as (Hac & Hnc & _). rewrite Ha, Hn, Hac, Hnc.
  match goal with |- context [String_replace ?a ?f pattern 0 []] =>
    destruct (String_replace a f pattern 0 []) as [[out reps]|] eqn:Hr end; simpl.
  - apply String_replace_push in Hr as (pushed & -> & Hp). eauto.
  - exists []. split; [reflexivity|constructor].
Qed.

(** An occurrence of the token is found by [match]. *)
Lemma matches_occurs (src : Source) (s : string) :
  more src = true -> occurs (String (lead src) "+") s -> matches src s 0 <> [].
Proof.
  intros Hmore (pre & post & ->).
  induction pre as [|c pre IH].
  - simpl. rewrite Hmore, Ascii.eqb_refl. simpl. discriminate.
  - rewrite append_cons. cbn [matches].
    destruct (matchHere src _); [discriminate|exact IH].
Qed.

Lemma matchCount_occurs (r : RegExp) (s : string) :
  more (source r) = true -> occurs (String (lead (source r)) "+") s ->
  1 <= matchCount (fst (String_match s r)).
Proof.
  intros Hmore Hocc. unfold String_match. simpl.
  pose proof (matches_occurs _ _ Hmore Hocc) as H.
  destruct (matches (source r) s 0); [congruence|simpl; lia].
Qed.

Lemma totalMatches_ge_1 (pattern : string) (o : Options) :
  standardSyntax o -> hasVariableToken pattern ->
  1 <= matchCount (fst (String_match pattern (alphanumericMoreRegex o)))
       + matchCount (fst (String_match pattern (numericMoreRegex o))).
Proof.
  intros (_ & _ & Ha & Hn) [H|H].
  - pose proof (matchCount_occurs (alphanumericMoreRegex o) pattern) as Hc.
    rewrite Ha in Hc. specialize (Hc eq_refl H). lia.
  - pose proof (matchCount_occurs (numericMoreRegex o) pattern) as Hc.
    rewrite Hn in Hc. specialize (Hc eq_refl H). lia.
Qed.

Lemma perTokenTarget_ge_1 (pattern : string) (howMany existing : Z) (o : Options) :
  standardSyntax o -> hasVariableToken pattern ->
  (1 <= perTokenTarget pattern howMany existing o)%Z.
Proof.
  intros Hsyn Htok. unfold perTokenTarget.
  apply ceilDiv_ge_1; [apply deficit_ge_1|].
  pose proof (totalMatches_ge_1 pattern o Hsyn Htok). lia.
Qed.

(** When the fixed placeholders cover the scaled request, the target is one
    permutation for each token. *)
Lemma perTokenTarget_covered (pattern : string) (howMany existing : Z) (o : Options) :
  standardSyntax o -> hasVariableToken pattern ->
  (howMany - fst (countNonRepeatingPermutations pattern o) + existing <= 1)%Z ->
  perTokenTarget pattern howMany existing o = 1%Z.
Proof.
  intros Hsyn Htok Hcov. unfold perTokenTarget.
  pose proof (totalMatches_ge_1 pattern o Hsyn Htok) as Ht.
  replace (deficit howMany _ existing) with 1%Z by (unfold deficit; lia).
  unfold ceilDiv.
  match goal with |- ((1 + ?t - 1) / ?t)%Z = _ =>
    replace (1 + t - 1)%Z with t by lia; apply Z.div_same; lia end.
Qed.

(** The plan for the pattern A#+. *)
Lemma calculateRepetitions_A (howMany existing : Z) (o : Options) :
  standardSyntax o ->
  fst (calculateRepetitions "A#+" howMany existing o)
  = [neededChars (deficit howMany 0 existing) (numericChars o)].
Proof.
  intros (Ha & Hn & Ham & Hnm).
  unfold calculateRepetitions, countNonRepeatingPermutations, countPermutations,
    String_match, combineRegexps.
  cbn [fst snd source lastIndex withLastIndex set_numericRegex set_alphanumericRegex
       set_alphanumericMoreRegex set_numericMoreRegex alphanumericRegex numericRegex
       alphanumericMoreRegex numericMoreRegex alphanumericChars numericChars map].
  rewrite Ha, Hn.
  change (matches {| lead := "#"; more := false |} "A#+" 0) with (@nil string).
  change (matches {| lead := "*"; more := false |} "A#+" 0) with (@nil string).
  cbn -[neededChars ceilDiv deficit matches String_replace].
  rewrite Ham, Hnm.
  cbn -[neededChars ceilDiv deficit].
  rewrite ceilDiv_1. reflexivity.
Qed.

Lemma skipn_string_empty (p : nat) : skipn_string p "" = "".
Proof. now destruct p. Qed.

(** A match somewhere behind the first [skip] characters is not missed by
    [match]. *)
Lemma matches_found (src : Source) (s : string) :
  forall skip p, skip <= p -> matchHere src (skipn_string p s) <> None ->
                 matches src s skip <> [].
Proof.
  induction s as [|c s IH]; intros skip p Hle Hm.
  - rewrite skipn_string_empty in Hm. now contradict Hm.
  - cbn [matches]. destruct skip as [|skip].
    + destruct (matchHere src (String c s)) eqn:Hhere; [discriminate|].
      destruct p as [|p]; [cbn [skipn_string] in Hm; congruence|].
      apply (IH 0 p); [lia|exact Hm].
    + destruct p as [|p]; [lia|]. apply (IH skip p); [lia|exact Hm].
Qed.

(** When the walk of [calculateRepetitions] changes its state, one of the
    alternatives matches somewhere. *)
Lemma String_replace_found {Σ : Type} (alts : list Source)
    (callback : nat -> Σ -> option (string * Σ)) (s : string) :
  forall (skip : nat) (st st' : Σ) (out : string),
    String_replace alts callback s skip st = Some (out, st') -> st' <> st ->
    exists p, skip <= p /\ firstAlternative alts (skipn_string p s) 0 <> None.
Proof.
  induction s as [|c s IH]; intros skip st st' out.
  - intros [= <- <-] H. now contradict H.
  - cbn [String_replace]. destruct skip as [|skip].
    + destruct (firstAlternative alts (String c s) 0) as [[g n]|] eqn:Hfirst.
      * intros _ _. exists 0. split; [lia|]. cbn [skipn_string]. congruence.
      * destruct (String_replace alts callback s 0 st) as [[out1 st1]|] eqn:Hr;
          [|discriminate].
        intros [= <- <-] Hne. destruct (IH _ _ _ _ Hr Hne) as (p & Hp & Hf).
        exists (S p). split; [lia|exact Hf].
    + intros Hr Hne. destruct (IH _ _ _ _ Hr Hne) as (p & Hp & Hf).
      exists (S p). split; [lia|exact Hf].
Qed.

Lemma firstAlternative_two (a n : Source) (s : string) :
  firstAlternative [a; n] s 0 <> None ->
  matchHere a s <> None \/ matchHere n s <> None.
Proof.
  simpl. destruct (matchHere a s); [left; discriminate|].
  destruct (matchHere n s); [right; discriminate|]. congruence.
Qed.

(** [distribute] is a quotient by [totalMatches]; it is read only when the
    walk finds a placeholder, and then [totalMatches] is not 0. *)
Lemma calculateRepetitions_totalMatches (pattern : string) (howMany existing : Z)
    (o : Options) :
  fst (calculateRepetitions pattern howMany existing o) <> [] ->
  1 <= matchCount (fst (String_match pattern (alphanumericMoreRegex o)))
       + matchCount (fst (String_match pattern (numericMoreRegex o))).
Proof.
  unfold calculateRepetitions.
  pose proof (countNonRepeatingPermutations_settings pattern o) as (_ & Ha & Hn).
  destruct (countNonRepeatingPermutations pattern o) as [possible o1].
  unfold String_match, combineRegexps. simpl in *. rewrite Ha, Hn.
  match goal with |- context [String_replace ?a ?f pattern 0 []] =>
    destruct (String_replace a f pattern 0 []) as [[out reps]|] eqn:Hr end;
    simpl; [|congruence].
  intros Hne. apply String_replace_found in Hr as (p & _ & Hf); [|exact Hne].
  apply firstAlternative_two in Hf as [Hf|Hf];
    apply (matches_found _ pattern 0 p) in Hf; try lia.
  - destruct (matches (source (alphanumericMoreRegex o)) pattern 0);
      [congruence|simpl; lia].
  - destruct (matches (source (numericMoreRegex o)) pattern 0);
      [congruence|]. simpl. lia.
Qed.

(** [calculateRepetitions] does not read [lastIndex]. *)
Lemma calculateRepetitions_settings_fst (pattern : string) (howMany existing : Z)
    (o o' : Options) :
  sameSettings o o' ->
  fst (calculateRepetitions pattern howMany existing o')
  = fst (calculateRepetitions pattern howMany existing o).
Proof.
  intros Hs. pose proof (countNonRepeatingPermutations_fst pattern o o' Hs) as Hp.
  unfold calculateRepetitions.
  pose proof (countNonRepeatingPermutations_settings pattern o) as (H1 & Ha1 & Hn1).
  pose proof (countNonRepeatingPermutations_settings pattern o') as (H2 & Ha2 & Hn2).
  destruct (countNonRepeatingPermutations pattern o) as [p1 o1].
  destruct (countNonRepeatingPermutations pattern o') as [p2 o2].
  unfold String_match, combineRegexps. simpl in *. subst p2.
  destruct Hs as (Hac & Hnc & _ & _ & Ha & Hn & _).
  destruct H1 as (Hac1 & Hnc1 & _), H2 as (Hac2 & Hnc2 & _).
  rewrite Ha1, Hn1, Ha2, Hn2, Hac1, Hnc1, Hac2, Hnc2, Ha, Hn, Hac, Hnc.
  reflexivity.
Qed.

End PlannerFacts.

(** ** The stages of a call of [generateCodes] *)

Module CallFacts.
Import JS CodeGenerator Spec RegExpFacts OptionsFacts EmitterFacts LoopFacts NumberFacts
  PlannerFacts.

(** A pattern on which the fresh test of [defaultOptions] fails holds no
    variable-length placeholder. *)
Lemma no_token_by_test (pattern : string) :
  fst (hasMorePlaceholder pattern defaultOptions) = false -> ~ hasVariableToken pattern.
Proof.
  intros H Htok.
  apply (hasMorePlaceholder_fresh pattern defaultOptions) in Htok;
    [congruence|repeat split|reflexivity|reflexivity].
Qed.

(** On the variable-length path every call throws: the assignment to the
    constant [repetitions]. *)
Lemma generateCodes_variable_path_throws (pattern : string) (howMany : option nat)
    (options : UserOptions) (defaults : Options) (rnd : nat -> Z) (fuel : nat) :
  fst (hasMorePlaceholder pattern (effective defaults options)) = true ->
  fst (generateCodes pattern howMany options defaults rnd fuel)
  = Threw TypeError_AssignmentToConstant.
Proof. intros H. rewrite generateCodes_fst. cbv zeta. now rewrite H. Qed.

(** The same for every pattern that holds a variable-length placeholder,
    under the syntax of the module and from fresh regular expressions. *)
Lemma generateCodes_variable_token_throws (pattern : string) (howMany : option nat)
    (options : UserOptions) (defaults : Options) (rnd : nat -> Z) (fuel : nat) :
  standardSyntax (effective defaults options) ->
  lastIndex (alphanumericMoreRegex (effective defaults options)) = 0 ->
  lastIndex (numericMoreRegex (effective defaults options)) = 0 ->
  hasVariableToken pattern ->
  fst (generateCodes pattern howMany options defaults rnd fuel)
  = Threw TypeError_AssignmentToConstant.
Proof.
  intros Hsyn Ha Hn Htok. apply generateCodes_variable_path_throws.
  now apply hasMorePlaceholder_fresh.
Qed.

(** On the fixed-only path, how the call ends. *)
Lemma generateCodes_fixed_path (pattern : string) (howMany : option nat)
    (options : UserOptions) (defaults : Options) (rnd : nat -> Z) (fuel : nat) :
  let o := effective defaults options in
  let possible := fst (countNonRepeatingPermutations pattern o) in
  let existingCodes := loadExistingCodes pattern o in
  fst (hasMorePlaceholder pattern o) = false ->
  exists o2,
    sameSettings o o2 /\
    fst (generateCodes pattern howMany options defaults rnd fuel) =
    if (possible - sparse (size existingCodes) o <? sparse (orOne howMany) o)%Z
    then Threw (Error_CannotGenerate (orOne howMany)
                  (Math_round (Number_div (inject_Z possible) (sparsity o)))
                  (size existingCodes) (sparsity o))
    else generate fuel pattern (orOne howMany) o2
           (combineRegexps [alphanumericMoreRegex o2; numericMoreRegex o2;
                            alphanumericRegex o2; numericRegex o2])
           [] rnd existingCodes [] 0.
Proof.
  intros o possible existingCodes Hfix.
  rewrite generateCodes_fst. cbv zeta. fold o. rewrite Hfix.
  pose proof (hasMorePlaceholder_settings pattern o) as Hs1.
  set (o1 := snd (hasMorePlaceholder pattern o)) in *.
  match goal with |- context [checkRequestedCode ?p ?x ?a ?b ?c ?d] =>
    pose proof (checkRequestedCode_settings p x a b c d) as (Hs2 & _);
    pose proof (checkRequestedCode_fst p x a b c d) as Hc;
    set (check := checkRequestedCode p x a b c d) in * end.
  cbv zeta in Hc, Hs2.
  exists (snd check). split; [eapply sameSettings_trans; eassumption|].
  rewrite Hc, (countNonRepeatingPermutations_fst pattern o o1 Hs1).
  destruct Hs1 as (_&_&_&_&_&_&Hsp&_). rewrite Hsp.
  subst possible existingCodes. clear Hc.
  match goal with |- context [if ?b then Some _ else None] => destruct b end;
    reflexivity.
Qed.

(** What a call that returns has returned: as many codes as asked for, no
    code twice, each of them new and the outcome of one pass of
    [pattern.replace]. *)
Lemma generateCodes_returned (pattern : string) (howMany : option nat)
    (options : UserOptions) (defaults : Options) (rnd : nat -> Z) (fuel : nat)
    (codes : list string) :
  let o := effective defaults options in
  fst (generateCodes pattern howMany options defaults rnd fuel) = Returned codes ->
  List.length codes = orOne howMany /\
  NoDup codes /\
  exists o2,
    sameSettings o o2 /\
    Forall (fun c =>
              (c ∉ loadExistingCodes pattern o) /\
              exists st st',
                String_replace
                  (combineRegexps [alphanumericMoreRegex o2; numericMoreRegex o2;
                                   alphanumericRegex o2; numericRegex o2])
                  (substitute o2 rnd) pattern 0 st = Some (c, st')) codes.
Proof.
  intros o. destruct (fst (hasMorePlaceholder pattern o)) eqn:Hvar.
  - rewrite generateCodes_variable_path_throws by exact Hvar. discriminate.
  - destruct (generateCodes_fixed_path pattern howMany options defaults rnd fuel Hvar)
      as (o2 & Hs & ->).
    match goal with |- context [if ?b then Threw _ else _] => destruct b end;
      [discriminate|].
    intros H. apply generate_spec in H as (Hlen & Hnd & fresh & -> & Hf).
    + split; [assumption|]. split; [assumption|]. exists o2. split; assumption.
    + simpl. lia.
    + constructor.
    + intros c Hc. inversion Hc.
Qed.

End CallFacts.

(** ** The pattern of two digits *)

Module ScenarioFacts.
Import JS CodeGenerator Spec RegExpFacts OptionsFacts EmitterFacts LoopFacts NumberFacts
  PlannerFacts CallFacts.




Lemma twoDigits_length (n : nat) : String.length (twoDigits n) = 2.
Proof. reflexivity. Qed.








End ScenarioFacts.

(** ** The claims of the specification *)

Module Properties.
Import JS CodeGenerator Spec RegExpFacts OptionsFacts EmitterFacts LoopFacts NumberFacts
  PlannerFacts CallFacts ScenarioFacts.

(** C1 (a defect of the code).  The claim: a pattern with a variable-length
    placeholder never makes [generateCodes] fail, and the call with pattern
    V-#+, the numeric alphabet 0123456789, howMany 50, no existing codes and
    sparsity 1 returns 50 distinct codes.  The code: that very call throws a
    [TypeError], whatever the random draws, because [repetitions] is
    declared with [const] and then assigned; the lengths had been resolved
    (two digits for the token) when the assignment failed. *)
Theorem voucher_pattern_throws (rnd : nat -> Z) (fuel : nat) :
  fst (generateCodes "V-#+" (Some 50) voucherOptions defaultOptions rnd fuel)
  = Threw TypeError_AssignmentToConstant /\
  plannedRepetitions "V-#+" (Some 50) voucherOptions defaultOptions = [Finite 2].
Proof. split; reflexivity. Qed.

(** C2, as stated, fails: the call with pattern FIXED and howMany 1 throws
    the capacity error; whatever the random draws, it does not return the one
    code FIXED. *)
Lemma fixed_pattern_not_returned :
  fst (generateCodes "FIXED" (Some 1) noOptions defaultOptions rnd0 10)
  = Threw (Error_CannotGenerate 1 0 0 1) /\
  ~ exists rnd fuel,
      fst (generateCodes "FIXED" (Some 1) noOptions defaultOptions rnd fuel)
      = Returned ["FIXED"].
Proof. split; [reflexivity|]. intros (rnd & fuel & H). discriminate H. Qed.

(** C2 (amended).  For the pattern FIXED, which has no placeholder, with no
    existing codes and the default options, [generateCodes] fails for
    howMany 1 as it does for howMany 2: a pattern without fixed placeholders
    counts 0 permutations, and the error reports the maximum 0. *)
Theorem fixed_pattern_fails (rnd : nat -> Z) (fuel : nat) :
  fst (generateCodes "FIXED" (Some 1) noOptions defaultOptions rnd fuel)
  = Threw (Error_CannotGenerate 1 0 0 1) /\
  fst (generateCodes "FIXED" (Some 2) noOptions defaultOptions rnd fuel)
  = Threw (Error_CannotGenerate 2 0 0 1) /\
  fst (countNonRepeatingPermutations "FIXED" defaultOptions) = 0%Z.
Proof. repeat split. Qed.



(** C4.  With the syntax of the module and both variable-length expressions
    at [lastIndex] 0, as [defaultOptions] is created, [hasMorePlaceholder]
    answers true exactly when the pattern holds a token [#+] or [*+].  Every
    call of [generateCodes] that does not bring its own variable-length
    expressions leaves them at [lastIndex] 0 again, so that
    [hasMorePlaceholder] gives the same answer for the same pattern at every
    call. *)
Theorem hasMorePlaceholder_iff_token (pattern : string) (defaults : Options) :
  standardSyntax defaults ->
  lastIndex (alphanumericMoreRegex defaults) = 0 ->
  lastIndex (numericMoreRegex defaults) = 0 ->
  (fst (hasMorePlaceholder pattern defaults) = true <-> hasVariableToken pattern) /\
  (forall (p : string) (howMany : option nat) (options : UserOptions)
          (rnd : nat -> Z) (fuel : nat),
      alphanumericMoreRegex' options = None ->
      numericMoreRegex' options = None ->
      let after := snd (generateCodes p howMany options defaults rnd fuel) in
      alphanumericMoreRegex after = alphanumericMoreRegex defaults /\
      numericMoreRegex after = numericMoreRegex defaults /\
      fst (hasMorePlaceholder pattern after) = fst (hasMorePlaceholder pattern defaults)).
Proof.
  intros Hsyn Ha Hn. split; [now apply hasMorePlaceholder_fresh|].
  intros p howMany options rnd fuel Hoa Hon after.
  destruct (generateCodes_snd p howMany options defaults rnd fuel)
    as ((_&_&_&_&Hsa&Hsn&_) & Hia & Hin).
  fold after in Hsa, Hsn, Hia, Hin.
  unfold effective in Hsa, Hsn.
  destruct (clampSparsity_settings (mergeOptions defaults options))
    as (_&_&_&_&Hca&Hcn&_).
  rewrite Hca in Hsa. rewrite Hcn in Hsn.
  unfold mergeOptions in Hsa, Hsn. simpl in Hsa, Hsn. rewrite Hoa in Hsa. rewrite Hon in Hsn.
  simpl in Hsa, Hsn.
  assert (alphanumericMoreRegex after = alphanumericMoreRegex defaults) as Ea
    by (apply RegExp_eq; congruence).
  assert (numericMoreRegex after = numericMoreRegex defaults) as En
    by (apply RegExp_eq; congruence).
  split; [assumption|]. split; [assumption|].
  now rewrite !hasMorePlaceholder_fst, Ea, En.
Qed.

Lemma hasMorePlaceholder_iff_token_witness :
  (fst (hasMorePlaceholder "V-#+" defaultOptions) = true <-> hasVariableToken "V-#+") /\
  fst (hasMorePlaceholder "V-#+"
         (snd (generateCodes "V-#+" (Some 50) noOptions defaultOptions rnd0 10)))
  = fst (hasMorePlaceholder "V-#+" defaultOptions).
Proof.
  destruct (hasMorePlaceholder_iff_token "V-#+" defaultOptions
              ltac:(repeat split) eq_refl eq_refl) as [H1 H2].
  split; [exact H1|].
  exact (proj2 (proj2 (H2 "V-#+" (Some 50) noOptions rnd0 10 eq_refl eq_refl))).
Defined.

(** C5.  Whenever [generateCodes], asked for [howMany] codes, returns, the
    array has exactly [howMany] elements, no element occurs twice, and no
    element is one of the codes the existing-codes loader supplied. *)
Theorem generateCodes_count_and_uniqueness (pattern : string) (howMany : nat)
    (options : UserOptions) (defaults : Options) (rnd : nat -> Z) (fuel : nat)
    (codes : list string) :
  1 <= howMany ->
  fst (generateCodes pattern (Some howMany) options defaults rnd fuel) = Returned codes ->
  List.length codes = howMany /\
  NoDup codes /\
  forall c, c ∈ codes -> c ∉ supplied pattern (effective defaults options).
Proof.
  intros Hpos H.
  apply generateCodes_returned in H as (Hlen & Hnd & o2 & _ & Hf).
  split; [destruct howMany; [lia|exact Hlen]|]. split; [assumption|].
  intros c Hc Hsup. rewrite Forall_forall in Hf. destruct (Hf c Hc) as [Hnew _].
  apply Hnew. unfold loadExistingCodes. apply convertToObject_elem. exact Hsup.
Qed.

Lemma generateCodes_count_and_uniqueness_witness :
  List.length ["95"; "96"; "97"; "98"; "99"] = 5 /\
  NoDup ["95"; "96"; "97"; "98"; "99"] /\
  forall c, c ∈ ["95"; "96"; "97"; "98"; "99"] ->
            c ∉ supplied "##" (effective defaultOptions (loading codes95)).
Proof.
  apply (generateCodes_count_and_uniqueness "##" 5 (loading codes95) defaultOptions
           rnd95 10); [lia|vm_compute; reflexivity].
Defined.

(** C6, as stated, fails: for a call with the pattern A#+, howMany 1 and the
    default options the length resolved for the token is 0, which is less
    than 1. *)
Lemma resolved_length_zero :
  plannedRepetitions "A#+" (Some 1) noOptions defaultOptions = [Finite 0] /\
  ~ Forall (fun l => number_ltb l (Finite 1) = false)
      (plannedRepetitions "A#+" (Some 1) noOptions defaultOptions).
Proof.
  split; [reflexivity|]. intros H. inversion H as [|l ls Hl _]. discriminate Hl.
Qed.

(** C6 (amended).  On the variable-length path, with alphabets of two
    characters or more, every length [calculateRepetitions] resolves is a
    non-negative integer.  It is 0 exactly when the per-token target is 1,
    which is the case whenever the fixed placeholders already cover the
    scaled request, and at least 1 when the target is 2 or more. *)
Theorem resolved_lengths_nonnegative (pattern : string) (howMany existing : Z)
    (o : Options) :
  standardSyntax o -> hasVariableToken pattern ->
  2 <= String.length (alphanumericChars o) ->
  2 <= String.length (numericChars o) ->
  let target := perTokenTarget pattern howMany existing o in
  (1 <= target)%Z /\
  Forall (fun l => exists e,
              l = Finite e /\ (0 <= e)%Z /\ (e = 0 <-> target = 1)%Z /\
              (2 <= target -> 1 <= e)%Z)
    (fst (calculateRepetitions pattern howMany existing o)) /\
  ((howMany - fst (countNonRepeatingPermutations pattern o) + existing <= 1)%Z ->
   Forall (fun l => l = Finite 0) (fst (calculateRepetitions pattern howMany existing o))).
Proof.
  intros Hsyn Htok Hal Hnu target.
  pose proof (perTokenTarget_ge_1 pattern howMany existing o Hsyn Htok) as Hge.
  fold target in Hge.
  assert (Forall (fun l => exists e,
              l = Finite e /\ (0 <= e)%Z /\ (e = 0 <-> target = 1)%Z /\
              (2 <= target -> 1 <= e)%Z)
            (fst (calculateRepetitions pattern howMany existing o))) as Hall.
  { destruct (calculateRepetitions_fst pattern howMany existing o) as (pushed & -> & Hp).
    eapply Forall_impl; [exact Hp|]. fold target. intros l [-> | ->].
    - destruct (neededChars_finite target (alphanumericChars o) Hge Hal)
        as (e & -> & He & Hz & _).
      exists e. repeat split; auto; try apply Hz. intros H2.
      destruct (Z.eq_dec e 0%Z) as [E|NE]; [apply Hz in E|]; lia.
    - destruct (neededChars_finite target (numericChars o) Hge Hnu)
        as (e & -> & He & Hz & _).
      exists e. repeat split; auto; try apply Hz. intros H2.
      destruct (Z.eq_dec e 0%Z) as [E|NE]; [apply Hz in E|]; lia. }
  split; [assumption|]. split; [assumption|].
  intros Hcov.
  pose proof (perTokenTarget_covered pattern howMany existing o Hsyn Htok Hcov) as Ht.
  fold target in Ht.
  eapply Forall_impl; [exact Hall|].
  intros l (e & -> & _ & Hz & _). f_equal. apply Hz, Ht.
Qed.

Lemma resolved_lengths_nonnegative_witness :
  Forall (fun l => l = Finite 0) (fst (calculateRepetitions "A#+" 1 0 defaultOptions)) /\
  Forall (fun l => exists e, l = Finite e /\ (1 <= e)%Z)
    (fst (calculateRepetitions "*+-#+" 1000 0 defaultOptions)).
Proof.
  split.
  - apply (resolved_lengths_nonnegative "A#+" 1 0 defaultOptions).
    + repeat split.
    + right. now exists "A", "".
    + simpl. lia.
    + simpl. lia.
    + vm_compute. discriminate.
  - destruct (resolved_lengths_nonnegative "*+-#+" 1000 0 defaultOptions
                ltac:(repeat split) ltac:(left; now exists "", "-#+")
                ltac:(simpl; lia) ltac:(simpl; lia)) as (_ & Hall & _).
    eapply Forall_impl; [exact Hall|].
    intros l (e & -> & _ & _ & H). exists e. split; [reflexivity|].
    apply H. vm_compute. discriminate.
Defined.

(** C7.  For the pattern A#+ and any one configuration, the length resolved
    for the token never decreases when [howMany] grows. *)
Theorem resolved_length_monotone (options : UserOptions) (defaults : Options)
    (howMany1 howMany2 : nat) :
  standardSyntax (effective defaults options) ->
  howMany1 <= howMany2 ->
  exists l1 l2,
    plannedRepetitions "A#+" (Some howMany1) options defaults = [l1] /\
    plannedRepetitions "A#+" (Some howMany2) options defaults = [l2] /\
    number_ltb l2 l1 = false /\
    (2 <= String.length (numericChars (effective defaults options)) ->
     exists e1 e2, l1 = Finite e1 /\ l2 = Finite e2 /\ (e1 <= e2)%Z).
Proof.
  intros Hsyn Hle. unfold plannedRepetitions.
  set (o := effective defaults options) in *.
  pose proof (hasMorePlaceholder_settings "A#+" o) as Hs.
  rewrite !(calculateRepetitions_settings_fst _ _ _ o _ Hs).
  rewrite !(calculateRepetitions_A _ _ o Hsyn).
  set (existing := sparse (size (loadExistingCodes "A#+" o)) o).
  assert (sparse (orOne (Some howMany1)) o <= sparse (orOne (Some howMany2)) o)%Z as Hm.
  { apply sparse_mono; [apply effective_sparsity_nonneg|now apply orOne_mono]. }
  pose proof (deficit_mono _ _ 0 existing Hm) as Hd.
  pose proof (deficit_ge_1 (sparse (orOne (Some howMany1)) o) 0 existing) as H1.
  eexists _, _. split; [reflexivity|]. split; [reflexivity|]. split.
  - apply neededChars_mono; assumption.
  - intros Hb. apply neededChars_mono_finite; assumption.
Qed.

Lemma resolved_length_monotone_witness :
  exists l1 l2,
    plannedRepetitions "A#+" (Some 5) noOptions defaultOptions = [l1] /\
    plannedRepetitions "A#+" (Some 5000) noOptions defaultOptions = [l2] /\
    number_ltb l2 l1 = false /\
    (2 <= String.length (numericChars (effective defaultOptions noOptions)) ->
     exists e1 e2, l1 = Finite e1 /\ l2 = Finite e2 /\ (e1 <= e2)%Z).
Proof.
  apply (resolved_length_monotone noOptions defaultOptions 5 5000).
  - repeat split.
  - lia.
Defined.

(** C8, as stated, fails: with an empty numeric alphabet the call for the
    pattern of the two fixed placeholders [#] and [*] returns a code of one
    character, not two; the placeholder [#] has been replaced by nothing. *)
Lemma empty_alphabet_code :
  fst (generateCodes "#*" (Some 1) noDigits defaultOptions rnd0 10) = Returned ["8"] /\
  String.length "8" <> String.length "#*".
Proof. split; [vm_compute; reflexivity|discriminate]. Qed.

(** C8 (amended).  Every code [generateCodes] returns has the shape of the
    pattern: literal characters stand unchanged where they are, every fixed
    placeholder is replaced by exactly one character of its alphabet when
    that alphabet is not empty and by nothing when it is empty, and every
    character put in for a placeholder is one of its alphabet. *)
Theorem returned_codes_conform (pattern : string) (howMany : option nat)
    (options : UserOptions) (defaults : Options) (rnd : nat -> Z) (fuel : nat)
    (codes : list string) :
  standardSyntax (effective defaults options) ->
  fst (generateCodes pattern howMany options defaults rnd fuel) = Returned codes ->
  Forall (conforms (alphanumericChars (effective defaults options))
            (numericChars (effective defaults options)) pattern) codes.
Proof.
  intros Hsyn H.
  apply generateCodes_returned in H as (_ & _ & o2 & Hs & Hf).
  rewrite combineRegexps_standard in Hf by (eapply sameSettings_standard; eassumption).
  eapply Forall_impl; [exact Hf|].
  intros c (_ & st & st' & Hr).
  apply (String_replace_conforms o2 rnd (String.length pattern)) in Hr; [|lia].
  destruct Hs as (Hac & Hnc & _). now rewrite Hac, Hnc in Hr.
Qed.

Lemma returned_codes_conform_witness :
  Forall (conforms (alphanumericChars (effective defaultOptions noOptions))
            (numericChars (effective defaultOptions noOptions)) "A*-#x")
    ["A3-2x"; "AC-4x"; "AM-7x"].
Proof.
  apply (returned_codes_conform "A*-#x" (Some 3) noOptions defaultOptions rnd0 10).
  - repeat split.
  - vm_compute. reflexivity.
Defined.

(** C9, as stated, fails: on the empty alphabet [randomChars] returns the
    empty string, whose length is not the count 3 asked for. *)
Lemma randomChars_empty_alphabet :
  fst (randomChars "" 3 rnd0 0) = "" /\
  String.length (fst (randomChars "" 3 rnd0 0)) <> 3.
Proof. split; [reflexivity|discriminate]. Qed.

(** C9 (amended).  For every alphabet and every count, every character of
    the string [randomChars] returns is a member of the alphabet; the length
    of the string is the count when the alphabet is not empty, and 0 when it
    is empty. *)
Theorem randomChars_length_and_alphabet (allowedChars : string) (howMany : nat)
    (rnd : nat -> Z) (k : nat) :
  drawnFrom allowedChars (fst (randomChars allowedChars howMany rnd k)) /\
  String.length (fst (randomChars allowedChars howMany rnd k))
  = (if String.eqb allowedChars "" then 0 else howMany).
Proof. apply randomChars_spec. Qed.

(** C10.  A call with [howMany] 0, or without [howMany], is the call with
    [howMany] 1: it ends the same way, and when it returns, it returns
    exactly one code. *)
Theorem howMany_zero_is_one (pattern : string) (howMany : option nat)
    (options : UserOptions) (defaults : Options) (rnd : nat -> Z) (fuel : nat) :
  howMany = None \/ howMany = Some 0 ->
  generateCodes pattern howMany options defaults rnd fuel
  = generateCodes pattern (Some 1) options defaults rnd fuel /\
  forall codes,
    fst (generateCodes pattern howMany options defaults rnd fuel) = Returned codes ->
    List.length codes = 1 /\ codes <> [].
Proof.
  intros H.
  assert (generateCodes pattern howMany options defaults rnd fuel
          = generateCodes pattern (Some 1) options defaults rnd fuel) as E
    by (destruct H as [-> | ->]; reflexivity).
  split; [exact E|]. rewrite E. intros codes Hret.
  apply generateCodes_returned in Hret as (Hl & _).
  split; [exact Hl|]. intros ->. discriminate.
Qed.

Lemma howMany_zero_is_one_witness :
  fst (generateCodes "A*-#x" (Some 0) noOptions defaultOptions rnd0 10)
  = Returned ["A3-2x"] /\
  List.length ["A3-2x"] = 1 /\ ["A3-2x"] <> [].
Proof.
  split; [vm_compute; reflexivity|].
  apply (proj2 (howMany_zero_is_one "A*-#x" (Some 0) noOptions defaultOptions rnd0 10
                  (or_intror eq_refl))).
  vm_compute. reflexivity.
Defined.

End Properties.

(** ** Arithmetic of the scaled counts *)

Module ExtraFacts.
Import JS CodeGenerator Spec DoubleFacts RegExpFacts OptionsFacts EmitterFacts LoopFacts
  NumberFacts PlannerFacts CallFacts.

(** With a sparsity of 1 or more, scaling a count that a double holds
    never makes it smaller. *)
Lemma sparse_ge (n : nat) (o : Options) :
  (1 <= sparsity o)%Q -> (Z.of_nat n <= 2 ^ 53)%Z -> (Z.of_nat n <= sparse n o)%Z.
Proof.
  intros Hs Hn. unfold sparse, Math_ceil, Number_mul.
  rewrite <- (Qceiling_Z (Z.of_nat n)) at 1.
  rewrite <- (Qceiling_comp _ _ (toDouble_Z (Z.of_nat n) ltac:(lia))).
  apply Qceiling_resp_le, toDouble_mono.
  apply Qle_trans with (inject_Z (Z.of_nat n) * 1)%Q.
  - rewrite Qmult_1_r. apply Qle_refl.
  - rewrite (Qmult_comm _ 1), (Qmult_comm _ (sparsity o)).
    apply Qmult_le_compat_r; [exact Hs|].
    change 0%Q with (inject_Z 0). rewrite <- Zle_Qle. lia.
Qed.

Lemma sparse_nonneg (n : nat) (o : Options) :
  (0 <= sparsity o)%Q -> (0 <= sparse n o)%Z.
Proof.
  intros Hs. unfold sparse, Math_ceil, Number_mul.
  rewrite <- (Qceiling_Z 0). apply Qceiling_resp_le.
  change (inject_Z 0) with 0%Q. apply toDouble_nonneg.
  apply Qmult_le_0_compat; [|exact Hs].
  change 0%Q with (inject_Z 0). rewrite <- Zle_Qle. lia.
Qed.

(** A count of 1 or more stays 1 or more. *)
Lemma sparse_pos (n : nat) (o : Options) :
  (1 <= sparsity o)%Q -> 1 <= n -> (1 <= sparse n o)%Z.
Proof.
  intros Hs Hn. unfold sparse, Math_ceil, Number_mul.
  rewrite <- (Qceiling_Z 1).
  rewrite <- (Qceiling_comp _ _ (toDouble_Z 1 ltac:(lia))).
  apply Qceiling_resp_le, toDouble_mono.
  change (inject_Z 1) with (1 * 1)%Q.
  apply Qmult_le_compat_nonneg; split; try lra.
  change 1%Q with (inject_Z 1). rewrite <- Zle_Qle. lia.
Qed.

(** A scaled count below 2 ^ 53 is the scaled value of a count below
    2 ^ 53. *)
Lemma sparse_small (n : nat) (o : Options) :
  (1 <= sparsity o)%Q -> (sparse n o < 2 ^ 53)%Z -> (Z.of_nat n < 2 ^ 53)%Z.
Proof.
  intros Hs Hlt. destruct (Z.lt_ge_cases (Z.of_nat n) (2 ^ 53)) as [H|H]; [exact H|exfalso].
  assert (2 ^ 53 <= sparse n o)%Z; [|lia].
  unfold sparse, Math_ceil, Number_mul.
  rewrite <- (Qceiling_Z (2 ^ 53)).
  rewrite <- (Qceiling_comp _ _ (toDouble_Z (2 ^ 53) ltac:(lia))).
  apply Qceiling_resp_le, toDouble_mono.
  apply Qle_trans with (inject_Z (Z.of_nat n) * 1)%Q.
  - rewrite Qmult_1_r. now rewrite <- Zle_Qle.
  - rewrite (Qmult_comm _ 1), (Qmult_comm _ (sparsity o)).
    apply Qmult_le_compat_r; [exact Hs|].
    change 0%Q with (inject_Z 0). rewrite <- Zle_Qle. lia.
Qed.

Lemma sparse_mono_sparsity (n : nat) (o o' : Options) :
  (sparsity o <= sparsity o')%Q -> (sparse n o <= sparse n o')%Z.
Proof.
  intros Hs. unfold sparse, Math_ceil, Number_mul.
  apply Qceiling_resp_le, toDouble_mono.
  rewrite (Qmult_comm _ (sparsity o)), (Qmult_comm _ (sparsity o')).
  apply Qmult_le_compat_r; [exact Hs|].
  change 0%Q with (inject_Z 0). rewrite <- Zle_Qle. lia.
Qed.

Lemma Math_round_zero (s : Q) :
  (0 < s)%Q -> Math_round (Number_div (inject_Z 0) s) = 0%Z.
Proof.
  intros Hs. unfold Number_div.
  rewrite (toDouble_comp (inject_Z 0 / s) 0); [reflexivity|].
  unfold Qdiv. change (inject_Z 0) with 0%Q. apply Qmult_0_l.
Qed.

End ExtraFacts.

(** ** Further properties of the code *)

Module Extras.
Import JS CodeGenerator Spec DoubleFacts RegExpFacts OptionsFacts EmitterFacts LoopFacts
  NumberFacts PlannerFacts CallFacts ExtraFacts.

Lemma effective_withSparsity (defaults : Options) (options : UserOptions) (s : Q) :
  (1 <= s)%Q ->
  effective defaults (withSparsity s options)
  = set_sparsity s (mergeOptions defaults options).
Proof.
  intros Hs. unfold effective, clampSparsity.
  change (sparsity (mergeOptions defaults (withSparsity s options))) with s.
  apply Qle_bool_iff in Hs. rewrite Hs. reflexivity.
Qed.

(** X1.  A sparsity below 1 (0 and negative values included) is the
    sparsity 1: the two calls end the same way and leave the same options
    object. *)
Theorem sparsity_below_one_is_one (pattern : string) (howMany : option nat)
    (options : UserOptions) (defaults : Options) (rnd : nat -> Z) (fuel : nat) (s : Q) :
  (s < 1)%Q ->
  generateCodes pattern howMany (withSparsity s options) defaults rnd fuel
  = generateCodes pattern howMany (withSparsity 1 options) defaults rnd fuel.
Proof.
  intros Hs.
  assert (clampSparsity (mergeOptions defaults (withSparsity s options))
          = clampSparsity (mergeOptions defaults (withSparsity 1 options))) as E.
  { unfold clampSparsity.
    change (sparsity (mergeOptions defaults (withSparsity s options))) with s.
    change (sparsity (mergeOptions defaults (withSparsity 1 options))) with 1%Q.
    destruct (Qle_bool 1 s) eqn:Hle.
    - apply Qle_bool_iff in Hle. now apply Qle_not_lt in Hle.
    - reflexivity. }
  unfold generateCodes. rewrite E. reflexivity.
Qed.

Lemma sparsity_below_one_is_one_witness :
  generateCodes "##" (Some 3) (withSparsity (1 # 4) noOptions) defaultOptions rnd0 10
  = generateCodes "##" (Some 3) (withSparsity 1 noOptions) defaultOptions rnd0 10.
Proof.
  apply (sparsity_below_one_is_one "##" (Some 3) noOptions defaultOptions rnd0 10 (1 # 4)).
  reflexivity.
Defined.

Lemma remove_dups_length (l : list string) :
  List.length (remove_dups l) <= List.length l.
Proof.
  induction l as [|x l IH]; simpl; [lia|].
  destruct (decide_rel elem_of x l); simpl; lia.
Qed.

(** X2.  The codes the loader supplies are the keys of [existingCodes], and
    a code supplied more than once is one key: the number of existing codes
    is the number of distinct codes supplied. *)
Theorem existing_codes_counted_once (pattern : string) (o : Options) :
  (forall c, c ∈ loadExistingCodes pattern o <-> c ∈ supplied pattern o) /\
  size (loadExistingCodes pattern o) = List.length (remove_dups (supplied pattern o)) /\
  size (loadExistingCodes pattern o) <= List.length (supplied pattern o).
Proof.
  unfold loadExistingCodes. fold (supplied pattern o).
  set (l := supplied pattern o).
  assert (size (convertToObject l) = List.length (remove_dups l)) as E.
  { rewrite <- (size_convertToObject (remove_dups l)) by apply NoDup_remove_dups.
    f_equal. apply set_eq. intros c.
    rewrite !convertToObject_elem. symmetry. apply elem_of_remove_dups. }
  split; [intros c; apply convertToObject_elem|]. split; [exact E|].
  rewrite E. apply remove_dups_length.
Qed.

(** How a call that has passed [hasMorePlaceholder] with the answer no ends,
    as far as the capacity check decides it. *)
Lemma capacity_decides (pattern : string) (howMany : option nat)
    (options : UserOptions) (defaults : Options) (rnd : nat -> Z) (fuel : nat) :
  let o := effective defaults options in
  let possible := fst (countNonRepeatingPermutations pattern o) in
  let existingCount := size (loadExistingCodes pattern o) in
  fst (hasMorePlaceholder pattern o) = false ->
  ((possible - sparse existingCount o < sparse (orOne howMany) o)%Z ->
   fst (generateCodes pattern howMany options defaults rnd fuel)
   = Threw (Error_CannotGenerate (orOne howMany)
              (Math_round (Number_div (inject_Z possible) (sparsity o)))
              existingCount (sparsity o))) /\
  (forall h m e s,
      fst (generateCodes pattern howMany options defaults rnd fuel)
      = Threw (Error_CannotGenerate h m e s) ->
      (possible - sparse existingCount o < sparse (orOne howMany) o)%Z /\
      h = orOne howMany /\ m = Math_round (Number_div (inject_Z possible) (sparsity o)) /\
      e = existingCount /\ s = sparsity o) /\
  (forall codes,
      fst (generateCodes pattern howMany options defaults rnd fuel) = Returned codes ->
      (sparse (orOne howMany) o <= possible - sparse existingCount o)%Z).
Proof.
  intros o possible existingCount Hfix.
  destruct (generateCodes_fixed_path pattern howMany options defaults rnd fuel Hfix)
    as (o2 & _ & ->).
  fold o possible existingCount.
  destruct (Z.ltb_spec (possible - sparse existingCount o) (sparse (orOne howMany) o))
    as [Hlt|Hge].
  - split; [reflexivity|]. split; [|discriminate].
    intros h m e s [= <- <- <- <-]. auto.
  - split; [lia|]. split; [|intros; assumption].
    intros h m e s H. apply generate_throws in H. discriminate.
Qed.

(** X3.  A request that fails for want of capacity fails the same way for
    every larger request: the error reports the same maximum, number of
    existing codes and sparsity, and the larger count. *)
Theorem capacity_error_for_larger_requests (pattern : string) (n m : nat)
    (options : UserOptions) (defaults : Options) (rnd rnd' : nat -> Z)
    (fuel fuel' : nat) (maximum : Z) (existing : nat) (s : Q) :
  1 <= n -> n <= m ->
  fst (generateCodes pattern (Some n) options defaults rnd fuel)
  = Threw (Error_CannotGenerate n maximum existing s) ->
  fst (generateCodes pattern (Some m) options defaults rnd' fuel')
  = Threw (Error_CannotGenerate m maximum existing s).
Proof.
  intros Hn Hnm H. set (o := effective defaults options).
  destruct (fst (hasMorePlaceholder pattern o)) eqn:Hvar.
  - rewrite generateCodes_variable_path_throws in H by exact Hvar. discriminate.
  - destruct (capacity_decides pattern (Some n) options defaults rnd fuel Hvar)
      as (_ & Hn' & _).
    destruct (Hn' _ _ _ _ H) as (Hlt & _ & -> & -> & ->).
    destruct (capacity_decides pattern (Some m) options defaults rnd' fuel' Hvar)
      as (Hm & _).
    replace (orOne (Some n)) with n in * by (destruct n; [lia|reflexivity]).
    replace (orOne (Some m)) with m in * by (destruct m; [lia|reflexivity]).
    apply Hm. fold o in Hlt |- *.
    pose proof (sparse_mono n m o (effective_sparsity_nonneg defaults options) Hnm).
    lia.
Qed.

Lemma capacity_error_for_larger_requests_witness :
  fst (generateCodes "##" (Some 7) (loading codes95) defaultOptions rnd0 3)
  = Threw (Error_CannotGenerate 7 100 95 1).
Proof.
  apply (capacity_error_for_larger_requests "##" 6 7 (loading codes95) defaultOptions
           rnd95 rnd0 10 3 100 95 1); [lia|lia|].
  vm_compute. reflexivity.
Defined.

(** X4.  Whenever [generateCodes] returns, for a pattern with fewer than
    2 ^ 53 permutations (a number a double holds exactly), the capacity it
    counted covers the request together with the existing codes:
    [Math.ceil(howMany * sparsity)] plus
    [Math.ceil(existingCount * sparsity)], the products being those of
    doubles, is at most the number of permutations counted, and so is the
    number of codes returned plus the number of existing codes. *)
Theorem returned_within_capacity (pattern : string) (howMany : option nat)
    (options : UserOptions) (defaults : Options) (rnd : nat -> Z) (fuel : nat)
    (codes : list string) :
  let o := effective defaults options in
  let possible := fst (countNonRepeatingPermutations pattern o) in
  let existingCount := size (loadExistingCodes pattern o) in
  (possible < 2 ^ 53)%Z ->
  fst (generateCodes pattern howMany options defaults rnd fuel) = Returned codes ->
  (Math_ceil (Number_mul (inject_Z (Z.of_nat (orOne howMany))) (sparsity o))
   + Math_ceil (Number_mul (inject_Z (Z.of_nat existingCount)) (sparsity o))
   <= possible)%Z /\
  (Z.of_nat (List.length codes) + Z.of_nat existingCount <= possible)%Z.
Proof.
  intros o possible existingCount Hexact H.
  destruct (fst (hasMorePlaceholder pattern o)) eqn:Hvar.
  - rewrite generateCodes_variable_path_throws in H by exact Hvar. discriminate.
  - destruct (capacity_decides pattern howMany options defaults rnd fuel Hvar)
      as (_ & _ & Hret).
    specialize (Hret codes H). fold o possible existingCount in Hret.
    apply generateCodes_returned in H as (Hlen & _).
    change (Math_ceil (Number_mul (inject_Z (Z.of_nat (orOne howMany))) (sparsity o)))
      with (sparse (orOne howMany) o).
    change (Math_ceil (Number_mul (inject_Z (Z.of_nat existingCount)) (sparsity o)))
      with (sparse existingCount o).
    assert (1 <= sparsity o)%Q as Hs by apply clampSparsity_ge_1.
    assert (0 <= sparsity o)%Q as Hs0 by lra.
    pose proof (sparse_nonneg (orOne howMany) o Hs0).
    pose proof (sparse_nonneg existingCount o Hs0).
    pose proof (sparse_small (orOne howMany) o Hs ltac:(lia)).
    pose proof (sparse_small existingCount o Hs ltac:(lia)).
    pose proof (sparse_ge (orOne howMany) o Hs ltac:(lia)).
    pose proof (sparse_ge existingCount o Hs ltac:(lia)).
    split; lia.
Qed.

Lemma returned_within_capacity_witness :
  (Math_ceil (Number_mul (inject_Z (Z.of_nat (orOne (Some 5%nat))))
                (sparsity (effective defaultOptions (loading codes95))))
   + Math_ceil (Number_mul
                  (inject_Z (Z.of_nat (size (loadExistingCodes "##"
                                               (effective defaultOptions (loading codes95))))))
                  (sparsity (effective defaultOptions (loading codes95))))
   <= fst (countNonRepeatingPermutations "##"
             (effective defaultOptions (loading codes95))))%Z /\
  (Z.of_nat (List.length ["95"; "96"; "97"; "98"; "99"])
   + Z.of_nat (size (loadExistingCodes "##" (effective defaultOptions (loading codes95))))
   <= fst (countNonRepeatingPermutations "##"
             (effective defaultOptions (loading codes95))))%Z.
Proof.
  apply (returned_within_capacity "##" (Some 5) (loading codes95) defaultOptions rnd95 10).
  - vm_compute. reflexivity.
  - vm_compute. reflexivity.
Defined.

(** Changing the sparsity of an options object changes neither the path a
    call takes, nor the existing codes, nor the permutations counted. *)
Lemma set_sparsity_frame (pattern : string) (s : Q) (o : Options) :
  fst (hasMorePlaceholder pattern (set_sparsity s o)) = fst (hasMorePlaceholder pattern o) /\
  loadExistingCodes pattern (set_sparsity s o) = loadExistingCodes pattern o /\
  fst (countNonRepeatingPermutations pattern (set_sparsity s o))
  = fst (countNonRepeatingPermutations pattern o).
Proof.
  split; [now rewrite !hasMorePlaceholder_fst|]. split; [reflexivity|].
  unfold countNonRepeatingPermutations, countPermutations, String_match. simpl.
  destruct (_ && _); reflexivity.
Qed.

(** X5.  A larger sparsity is stricter: a request that fails for want of
    capacity at one sparsity fails for want of capacity at every larger
    sparsity, for the same pattern, count and existing codes. *)
Theorem capacity_error_for_larger_sparsity (pattern : string) (howMany : option nat)
    (options : UserOptions) (defaults : Options) (rnd rnd' : nat -> Z)
    (fuel fuel' : nat) (s s' : Q) (h : nat) (maximum : Z) (existing : nat) (s0 : Q) :
  (1 <= s)%Q -> (s <= s')%Q ->
  fst (generateCodes pattern howMany (withSparsity s options) defaults rnd fuel)
  = Threw (Error_CannotGenerate h maximum existing s0) ->
  exists maximum',
    fst (generateCodes pattern howMany (withSparsity s' options) defaults rnd' fuel')
    = Threw (Error_CannotGenerate h maximum' existing s').
Proof.
  intros Hs Hss H.
  assert (1 <= s')%Q as Hs' by (eapply Qle_trans; eassumption).
  pose proof (effective_withSparsity defaults options s Hs) as E.
  pose proof (effective_withSparsity defaults options s' Hs') as E'.
  set (base := mergeOptions defaults options) in *.
  destruct (set_sparsity_frame pattern s base) as (F1 & F2 & F3).
  destruct (set_sparsity_frame pattern s' base) as (F1' & F2' & F3').
  destruct (fst (hasMorePlaceholder pattern base)) eqn:Hvar.
  - rewrite generateCodes_variable_path_throws in H by (rewrite E; exact F1).
    discriminate.
  - destruct (capacity_decides pattern howMany (withSparsity s options) defaults rnd fuel)
      as (_ & Hcap & _); [rewrite E; exact F1|].
    destruct (Hcap _ _ _ _ H) as (Hlt & -> & _ & -> & _).
    destruct (capacity_decides pattern howMany (withSparsity s' options) defaults
                rnd' fuel') as (Hthrow & _); [rewrite E'; exact F1'|].
    rewrite E in Hlt. rewrite E' in Hthrow. rewrite E.
    rewrite F2, F3 in Hlt. rewrite F2, F2', F3' in *.
    eexists. apply Hthrow.
    assert (sparsity (set_sparsity s base) <= sparsity (set_sparsity s' base))%Q as Hle
      by exact Hss.
    pose proof (sparse_mono_sparsity (orOne howMany) _ _ Hle).
    pose proof (sparse_mono_sparsity (size (loadExistingCodes pattern base)) _ _ Hle).
    lia.
Qed.

Lemma capacity_error_for_larger_sparsity_witness :
  exists maximum',
    fst (generateCodes "##" (Some 60) (withSparsity 10 noOptions) defaultOptions rnd0 3)
    = Threw (Error_CannotGenerate 60 maximum' 0 10).
Proof.
  apply (capacity_error_for_larger_sparsity "##" (Some 60) noOptions defaultOptions
           rnd0 rnd0 3 3 2 10 60 50 0 2); [discriminate|discriminate|].
  vm_compute. reflexivity.
Defined.

Lemma occurs_chars (tok s : string) (c : ascii) :
  occurs tok s -> In c (chars tok) -> In c (chars s).
Proof.
  intros (pre & post & ->) Hc. rewrite !chars_app, !in_app_iff. auto.
Qed.

Lemma matches_absent (src : Source) (s : string) :
  ~ In (lead src) (chars s) -> forall skip, matches src s skip = [].
Proof.
  induction s as [|c s IH]; intros Hno skip; [reflexivity|].
  assert (c <> lead src) as Hc by (intros ->; apply Hno; now left).
  assert (~ In (lead src) (chars s)) as Hs by (intros H; apply Hno; now right).
  cbn [matches]. destruct skip as [|skip]; [|now apply IH].
  unfold matchHere. apply Ascii.eqb_neq in Hc. rewrite Hc. now apply IH.
Qed.

(** X6.  A pattern that holds neither [#] nor [*] always fails, whatever is
    asked for: no permutation is counted for it, and the error reports the
    maximum 0. *)
Theorem pattern_without_placeholder_fails (pattern : string) (howMany : option nat)
    (options : UserOptions) (defaults : Options) (rnd : nat -> Z) (fuel : nat) :
  let o := effective defaults options in
  standardSyntax o ->
  ~ In "*"%char (chars pattern) -> ~ In "#"%char (chars pattern) ->
  fst (countNonRepeatingPermutations pattern o) = 0%Z /\
  fst (generateCodes pattern howMany options defaults rnd fuel)
  = Threw (Error_CannotGenerate (orOne howMany) 0
             (size (loadExistingCodes pattern o)) (sparsity o)).
Proof.
  intros o Hsyn Hstar Hhash.
  assert (fst (countNonRepeatingPermutations pattern o) = 0%Z) as Hzero.
  { destruct Hsyn as (Ha & Hn & _).
    unfold countNonRepeatingPermutations, countPermutations, String_match. simpl.
    rewrite Ha, Hn, !matches_absent by assumption. reflexivity. }
  split; [exact Hzero|].
  assert (~ hasVariableToken pattern) as Hno.
  { intros [H|H]; [apply Hstar|apply Hhash];
      (eapply occurs_chars; [exact H|now left]). }
  destruct (capacity_decides pattern howMany options defaults rnd fuel) as (Hthrow & _);
    [now apply hasMorePlaceholder_no_token|].
  fold o in Hthrow. rewrite Hzero in Hthrow.
  rewrite Math_round_zero in Hthrow.
  - apply Hthrow.
    assert (1 <= orOne howMany) as Hone by (destruct howMany as [[|n]|]; simpl; lia).
    assert (1 <= sparsity o)%Q as Hs by apply clampSparsity_ge_1.
    pose proof (sparse_pos (orOne howMany) o Hs Hone).
    pose proof (sparse_nonneg (size (loadExistingCodes pattern o)) o ltac:(lra)).
    lia.
  - eapply Qlt_le_trans; [|apply clampSparsity_ge_1]. reflexivity.
Qed.

Lemma pattern_without_placeholder_fails_witness :
  fst (countNonRepeatingPermutations "PROMO-2024" (effective defaultOptions noOptions))
  = 0%Z /\
  fst (generateCodes "PROMO-2024" (Some 1) noOptions defaultOptions rnd0 10)
  = Threw (Error_CannotGenerate (orOne (Some 1)) 0
             (size (loadExistingCodes "PROMO-2024" (effective defaultOptions noOptions)))
             (sparsity (effective defaultOptions noOptions))).
Proof.
  apply (pattern_without_placeholder_fails "PROMO-2024" (Some 1) noOptions defaultOptions
           rnd0 10).
  - repeat split.
  - apply (bool_decide_unpack _). vm_compute. exact I.
  - apply (bool_decide_unpack _). vm_compute. exact I.
Defined.

Lemma drawnFrom_one_length (alphabet text : string) :
  alphabet <> "" -> oneFrom alphabet text -> String.length text = 1.
Proof. intros Hne [_ ->]. destruct alphabet; [congruence|reflexivity]. Qed.

Lemma conforms_same_length (alphanumeric numeric pattern code : string) :
  alphanumeric <> "" -> numeric <> "" ->
  conforms alphanumeric numeric pattern code ->
  ~ hasVariableToken pattern ->
  String.length code = String.length pattern.
Proof.
  intros Ha Hn Hc. induction Hc as
    [|pattern code text _ _ _|pattern code text _ _ _
     |pattern code text Hplus Hone _ IH|pattern code text Hplus Hone _ IH
     |c pattern code _ _ _ IH]; intros Hno.
  - reflexivity.
  - exfalso. apply Hno. left. now exists "", pattern.
  - exfalso. apply Hno. right. now exists "", pattern.
  - rewrite length_append, (drawnFrom_one_length _ _ Ha Hone). simpl. f_equal.
    apply IH. intros [H|H]; apply Hno; [left|right]; now apply occurs_cons.
  - rewrite length_append, (drawnFrom_one_length _ _ Hn Hone). simpl. f_equal.
    apply IH. intros [H|H]; apply Hno; [left|right]; now apply occurs_cons.
  - simpl. f_equal.
    apply IH. intros [H|H]; apply Hno; [left|right]; now apply occurs_cons.
Qed.

(** X7.  For a pattern without variable-length placeholder and alphabets
    that are not empty, every code returned has the length of the
    pattern. *)
Theorem returned_codes_have_pattern_length (pattern : string) (howMany : option nat)
    (options : UserOptions) (defaults : Options) (rnd : nat -> Z) (fuel : nat)
    (codes : list string) :
  let o := effective defaults options in
  standardSyntax o -> ~ hasVariableToken pattern ->
  alphanumericChars o <> "" -> numericChars o <> "" ->
  fst (generateCodes pattern howMany options defaults rnd fuel) = Returned codes ->
  Forall (fun code => String.length code = String.length pattern) codes.
Proof.
  intros o Hsyn Hno Ha Hn H.
  apply generateCodes_returned in H as (_ & _ & o2 & Hs & Hf).
  rewrite combineRegexps_standard in Hf by (eapply sameSettings_standard; eassumption).
  eapply Forall_impl; [exact Hf|].
  intros c (_ & st & st' & Hr).
  apply (String_replace_conforms o2 rnd (String.length pattern)) in Hr; [|lia].
  destruct Hs as (Hac & Hnc & _). rewrite Hac, Hnc in Hr.
  exact (conforms_same_length _ _ _ _ Ha Hn Hr Hno).
Qed.

Lemma returned_codes_have_pattern_length_witness :
  Forall (fun code => String.length code = String.length "A*-#x")
    ["A3-2x"; "AC-4x"; "AM-7x"].
Proof.
  apply (returned_codes_have_pattern_length "A*-#x" (Some 3) noOptions defaultOptions
           rnd0 10).
  - repeat split.
  - apply no_token_by_test. reflexivity.
  - discriminate.
  - discriminate.
  - vm_compute. reflexivity.
Defined.

(** With the empty array [rep] of the fixed-only path, a pass of
    [pattern.replace] always comes to an end. *)
Lemma String_replace_ends (alts : list Source) (o : Options) (rnd : nat -> Z)
    (s : string) :
  forall (skip k : nat),
    exists code k',
      String_replace alts (substitute o rnd) s skip ([], k) = Some (code, ([], k')).
Proof.
  induction s as [|c s IH]; intros skip k; [simpl; eauto|].
  cbn [String_replace]. destruct skip as [|skip]; [|apply IH].
  destruct (firstAlternative alts (String c s) 0) as [[g n]|].
  - assert (exists text k1, substitute o rnd g ([], k) = Some (text, ([], k1)))
      as (text & k1 & ->).
    { unfold substitute. destruct g as [|[|[|g]]]; cbv beta iota zeta;
        cbn [shift iterations];
        match goal with |- context [randomChars ?a ?n ?r ?x] =>
          destruct (randomChars a n r x) as [t x'] end; eauto. }
    destruct (IH (n - 1) k1) as (code & k' & ->). eauto.
  - destruct (IH 0 k) as (code & k' & ->). eauto.
Qed.

(** X8.  When the loader supplies the code [hasOwnProperty] and the request
    passes the capacity check, the call throws a [TypeError] in the first
    round of the retry loop instead of returning codes: the key shadows the
    method the loop calls on [existingCodes]. *)
Theorem loader_code_hasOwnProperty_throws (pattern : string) (howMany : option nat)
    (options : UserOptions) (defaults : Options) (rnd : nat -> Z) (fuel : nat) :
  let o := effective defaults options in
  let possible := fst (countNonRepeatingPermutations pattern o) in
  let existingCount := size (loadExistingCodes pattern o) in
  standardSyntax o -> ~ hasVariableToken pattern ->
  "hasOwnProperty" ∈ supplied pattern o ->
  (sparse (orOne howMany) o <= possible - sparse existingCount o)%Z ->
  1 <= fuel ->
  fst (generateCodes pattern howMany options defaults rnd fuel)
  = Threw TypeError_NotAFunction.
Proof.
  intros o possible existingCount Hsyn Hno Hsup Hcap Hfuel.
  destruct (generateCodes_fixed_path pattern howMany options defaults rnd fuel)
    as (o2 & _ & ->); [now apply hasMorePlaceholder_no_token|].
  fold o possible existingCount.
  destruct (Z.ltb_spec (possible - sparse existingCount o) (sparse (orOne howMany) o));
    [lia|].
  destruct fuel as [|fuel]; [lia|]. cbn [generate].
  assert ((List.length (@nil string) <? orOne howMany) = true) as ->
    by (destruct howMany as [[|n]|]; reflexivity).
  match goal with |- context [String_replace ?a ?f pattern 0 ([], 0)] =>
    destruct (String_replace_ends a o2 rnd pattern 0 0) as (code & k' & ->) end.
  unfold hasOwnProperty. rewrite bool_decide_eq_true_2; [reflexivity|].
  unfold loadExistingCodes. apply convertToObject_elem. exact Hsup.
Qed.

Lemma loader_code_hasOwnProperty_throws_witness :
  fst (generateCodes "##" (Some 1) (loading ["hasOwnProperty"]) defaultOptions rnd0 10)
  = Threw TypeError_NotAFunction.
Proof.
  apply (loader_code_hasOwnProperty_throws "##" (Some 1) (loading ["hasOwnProperty"])
           defaultOptions rnd0 10).
  - repeat split.
  - apply no_token_by_test. reflexivity.
  - apply list_elem_of_singleton. reflexivity.
  - vm_compute. discriminate.
  - lia.
Defined.

Lemma matchCount_matches (pattern : string) (r : RegExp) :
  matchCount (fst (String_match pattern r)) = List.length (matches (source r) pattern 0).
Proof. unfold String_match. simpl. now destruct (matches (source r) pattern 0). Qed.

(** Behind a plus sign nothing of the two variable-length tokens starts, so
    skipping it loses no match. *)
Lemma matches_skip_plus (src : Source) (rest : string) :
  lead src <> "+"%char ->
  matches src (String "+" rest) 1 = matches src (String "+" rest) 0.
Proof.
  intros Hlead. cbn [matches]. unfold matchHere.
  assert (Ascii.eqb "+" (lead src) = false) as ->
    by (apply Ascii.eqb_neq; congruence).
  reflexivity.
Qed.

(** The walk of [calculateRepetitions] pushes one length for every match of
    either variable-length token. *)
Lemma String_replace_push_count (v0 v1 : number) (s : string) :
  forall (skip : nat) (st st' : list number) (out : string),
    String_replace
      [ {| lead := "*"; more := true |}; {| lead := "#"; more := true |} ]
      (fun group repetitions =>
         match group with
         | 0 => Some ("undefined", (repetitions ++ [v0])%list)
         | _ => Some ("undefined", (repetitions ++ [v1])%list)
         end) s skip st = Some (out, st') ->
    List.length st' =
    List.length st
    + List.length (matches {| lead := "*"; more := true |} s skip)
    + List.length (matches {| lead := "#"; more := true |} s skip).
Proof.
  induction s as [|c s IH]; intros skip st st' out.
  - intros [= <- <-]. simpl. lia.
  - cbn [String_replace matches]. destruct skip as [|skip]; [|apply IH].
    unfold firstAlternative, matchHere. cbn [lead more].
    destruct (Ascii.eqb_spec c "*") as [->|Hstar];
      [|destruct (Ascii.eqb_spec c "#") as [->|Hhash]].
    + change (Ascii.eqb "*" "#") with false. cbv iota.
      destruct (startsWithPlus s) eqn:Hplus.
      * apply startsWithPlus_true in Hplus as [rest ->]. cbn [Nat.sub].
        match goal with |- context [String_replace ?a ?f ?t 1 ?x] =>
          destruct (String_replace a f t 1 x) as [[out1 st1]|] eqn:Hr end;
          [|discriminate].
        intros [= <- <-]. apply IH in Hr. rewrite Hr, length_app.
        rewrite <- (matches_skip_plus {| lead := "#"; more := true |} rest)
          by discriminate.
        simpl. lia.
      * match goal with |- context [String_replace ?a ?f s 0 ?x] =>
          destruct (String_replace a f s 0 x) as [[out1 st1]|] eqn:Hr end;
          [|discriminate].
        intros [= <- <-]. apply IH in Hr. exact Hr.
    + change (Ascii.eqb "#" "*") with false. cbv iota.
      destruct (startsWithPlus s) eqn:Hplus.
      * apply startsWithPlus_true in Hplus as [rest ->]. cbn [Nat.sub].
        match goal with |- context [String_replace ?a ?f ?t 1 ?x] =>
          destruct (String_replace a f t 1 x) as [[out1 st1]|] eqn:Hr end;
          [|discriminate].
        intros [= <- <-]. apply IH in Hr. rewrite Hr, length_app.
        rewrite <- (matches_skip_plus {| lead := "*"; more := true |} rest)
          by discriminate.
        simpl. lia.
      * match goal with |- context [String_replace ?a ?f s 0 ?x] =>
          destruct (String_replace a f s 0 x) as [[out1 st1]|] eqn:Hr end;
          [|discriminate].
        intros [= <- <-]. apply IH in Hr. exact Hr.
    + match goal with |- context [String_replace ?a ?f s 0 ?x] =>
        destruct (String_replace a f s 0 x) as [[out1 st1]|] eqn:Hr end;
        [|discriminate].
      intros [= <- <-]. apply IH in Hr. exact Hr.
Qed.

Lemma String_replace_push_total (alts : list Source) (v0 v1 : number) (s : string) :
  forall (skip : nat) (st : list number),
    String_replace alts
      (fun group repetitions =>
         match group with
         | 0 => Some ("undefined", (repetitions ++ [v0])%list)
         | _ => Some ("undefined", (repetitions ++ [v1])%list)
         end) s skip st <> None.
Proof.
  induction s as [|c s IH]; intros skip st; [discriminate|].
  cbn [String_replace]. destruct skip as [|skip]; [|apply IH].
  destruct (firstAlternative alts (String c s) 0) as [[[|g] n]|]; cbv beta iota;
    match goal with |- context [String_replace alts ?f s ?k ?x] =>
      specialize (IH k x); destruct (String_replace alts f s k x) as [[out1 st1]|] end;
    congruence.
Qed.

(** X9.  [calculateRepetitions] resolves exactly one length for each
    occurrence of a variable-length placeholder in the pattern: its result
    has as many entries as the two [match] calls count. *)
Theorem one_length_for_each_variable_placeholder (pattern : string)
    (howMany existing : Z) (o : Options) :
  standardSyntax o ->
  List.length (fst (calculateRepetitions pattern howMany existing o))
  = matchCount (fst (String_match pattern (alphanumericMoreRegex o)))
    + matchCount (fst (String_match pattern (numericMoreRegex o))).
Proof.
  intros (_ & _ & Ha & Hn). rewrite !matchCount_matches, Ha, Hn.
  unfold calculateRepetitions.
  pose proof (countNonRepeatingPermutations_settings pattern o) as (_ & Ea & En).
  destruct (countNonRepeatingPermutations pattern o) as [possible o1].
  unfold String_match, combineRegexps. simpl in *. rewrite Ea, En, Ha, Hn.
  match goal with |- context [String_replace ?a ?f pattern 0 []] =>
    destruct (String_replace a f pattern 0 []) as [[out reps]|] eqn:Hr end.
  - apply String_replace_push_count in Hr. simpl in *. lia.
  - now apply String_replace_push_total in Hr.
Qed.

Lemma one_length_for_each_variable_placeholder_witness :
  List.length (fst (calculateRepetitions "##A#+-*+#+" 2001 0 defaultOptions)) = 3.
Proof.
  rewrite (one_length_for_each_variable_placeholder "##A#+-*+#+" 2001 0 defaultOptions).
  - reflexivity.
  - repeat split.
Defined.

Lemma countNonRepeatingPermutations_resets (pattern : string) (o : Options) :
  lastIndex (alphanumericRegex (snd (countNonRepeatingPermutations pattern o))) = 0 /\
  lastIndex (numericRegex (snd (countNonRepeatingPermutations pattern o))) = 0.
Proof.
  unfold countNonRepeatingPermutations, countPermutations, String_match. simpl.
  destruct (_ && _); split; reflexivity.
Qed.

(** X10.  Every call of [generateCodes], however it ends, leaves the four
    regular expressions of its options object, the caller's own included,
    at [lastIndex] 0, and changes nothing else of the merged options. *)
Theorem regular_expressions_left_reset (pattern : string) (howMany : option nat)
    (options : UserOptions) (defaults : Options) (rnd : nat -> Z) (fuel : nat) :
  let after := snd (generateCodes pattern howMany options defaults rnd fuel) in
  sameSettings (effective defaults options) after /\
  lastIndex (alphanumericRegex after) = 0 /\
  lastIndex (numericRegex after) = 0 /\
  lastIndex (alphanumericMoreRegex after) = 0 /\
  lastIndex (numericMoreRegex after) = 0.
Proof.
  intros after.
  destruct (generateCodes_snd pattern howMany options defaults rnd fuel)
    as (Hs & Ha & Hn).
  fold after in Hs, Ha, Hn. split; [exact Hs|].
  assert (lastIndex (alphanumericRegex after) = 0 /\ lastIndex (numericRegex after) = 0)
    as [Hfa Hfn]; [|auto].
  subst after. unfold generateCodes. fold (effective defaults options).
  set (o := effective defaults options). simpl.
  destruct (hasMorePlaceholder pattern o) as [[] o1]; simpl.
  - unfold calculateRepetitions.
    match goal with |- context [countNonRepeatingPermutations pattern ?x] =>
      pose proof (countNonRepeatingPermutations_resets pattern x) as Hr;
      destruct (countNonRepeatingPermutations pattern x) as [possible o2] end.
    unfold String_match. simpl in *. exact Hr.
  - unfold checkRequestedCode.
    match goal with |- context [countNonRepeatingPermutations pattern ?x] =>
      pose proof (countNonRepeatingPermutations_resets pattern x) as Hr;
      destruct (countNonRepeatingPermutations pattern x) as [possible o2] end.
    simpl in *. destruct (_ <? _)%Z; exact Hr.
Qed.

Lemma skipn_string_beyond (s : string) (n : nat) :
  String.length s < n -> skipn_string n s = "".
Proof.
  revert n. induction s as [|c s IH]; intros [|n] H; simpl in *; try lia; [reflexivity|].
  apply IH. lia.
Qed.

Lemma occurs_empty (tok : string) : tok <> "" -> ~ occurs tok "".
Proof.
  intros Hne (pre & post & H). destruct pre; [|discriminate H].
  destruct tok; [congruence|discriminate H].
Qed.

Lemma occurs_skipn (tok s : string) (n : nat) :
  occurs tok (skipn_string n s) -> occurs tok s.
Proof.
  revert s. induction n as [|n IH]; intros s; [now destruct s|].
  destruct s as [|c s]; simpl; [auto|]. intros H. apply occurs_cons. now apply IH.
Qed.

(** [test] answers whether the token occurs at or behind [lastIndex]. *)
Lemma RegExp_test_iff (r : RegExp) (s : string) :
  more (source r) = true ->
  fst (RegExp_test r s) = true
  <-> occurs (String (lead (source r)) "+") (skipn_string (lastIndex r) s).
Proof.
  intros Hmore. unfold RegExp_test.
  destruct (Nat.ltb_spec (String.length s) (lastIndex r)) as [Hlt|Hge].
  - rewrite skipn_string_beyond by exact Hlt. simpl. split; [discriminate|].
    intros H. now apply occurs_empty in H.
  - destruct (search _ _ _) as [[i n]|] eqn:Hs; simpl.
    + split; [intros _|reflexivity].
      apply (search_more_occurs _ _ (lastIndex r) Hmore). congruence.
    + split; [discriminate|]. intros H.
      now apply (occurs_search_more _ _ (lastIndex r) Hmore) in H.
Qed.

(** X11.  Whatever [lastIndex] its two regular expressions are at,
    [hasMorePlaceholder] answers true exactly when [*+] occurs in the
    pattern at or behind the [lastIndex] of the one, or [#+] at or behind
    the [lastIndex] of the other.  It never reports a placeholder the
    pattern does not hold; from a [lastIndex] other than 0 it can miss
    one. *)
Theorem hasMorePlaceholder_from_lastIndex (pattern : string) (o : Options) :
  standardSyntax o ->
  (fst (hasMorePlaceholder pattern o) = true
   <-> occurs "*+" (skipn_string (lastIndex (alphanumericMoreRegex o)) pattern) \/
       occurs "#+" (skipn_string (lastIndex (numericMoreRegex o)) pattern)) /\
  (fst (hasMorePlaceholder pattern o) = true -> hasVariableToken pattern).
Proof.
  intros (_ & _ & Ha & Hn).
  assert (fst (hasMorePlaceholder pattern o) = true
          <-> occurs "*+" (skipn_string (lastIndex (alphanumericMoreRegex o)) pattern) \/
              occurs "#+" (skipn_string (lastIndex (numericMoreRegex o)) pattern)) as Hiff.
  { rewrite hasMorePlaceholder_fst, orb_true_iff.
    rewrite !RegExp_test_iff by (rewrite ?Ha, ?Hn; reflexivity).
    rewrite Ha, Hn. reflexivity. }
  split; [exact Hiff|].
  intros H. apply Hiff in H as [H|H]; [left|right]; eapply occurs_skipn, H.
Qed.

Lemma hasMorePlaceholder_from_lastIndex_witness :
  lastIndex (alphanumericMoreRegex (snd (hasMorePlaceholder "*+AB" defaultOptions))) = 2 /\
  fst (hasMorePlaceholder "*+AB" (snd (hasMorePlaceholder "*+AB" defaultOptions))) = false /\
  ~ (occurs "*+" (skipn_string 2 "*+AB") \/ occurs "#+" (skipn_string 0 "*+AB")).
Proof.
  split; [reflexivity|]. split; [reflexivity|].
  intros H.
  apply (proj1 (hasMorePlaceholder_from_lastIndex "*+AB"
                  (snd (hasMorePlaceholder "*+AB" defaultOptions))
                  ltac:(repeat split))) in H.
  discriminate H.
Defined.

End Extras.
